(** * tRPC procedure core, observable primitive and postMessage adapter

    A shallow embedding of three pieces of the repository:

    - the [Procedure] class ([getParseFn] apart) of
      [src/examples/post-message-server/client/src/components/Main.tsx], in
      its part that imports from [@trpc/server/src/internals/procedure]:
      input parsing, the middleware chain driven by [next], the resolver and
      output parsing; [callProcedure] follows it in the same file;
    - [observable] of [src/unnamed/part_002]: the variables of one
      subscription ([teardownRef], [isDone], [unsubscribed],
      [teardownImmediately]) and the four functions that work on them;
    - [applyPMSHandler] of [src/unnamed/part_001]: the assertions on an
      envelope, [parseMessage], [handleRequest], the [clientSubscriptions]
      map, the message listener and [close].

    Asynchronous functions are embedded as state-passing functions.  Where
    the source suspends on an [await] whose answer comes from outside (the
    router, a subscription), the function is cut at that point and the answer
    is an argument of the continuation.  Calls of user-supplied functions are
    recorded in a log that the source does not have; it is only ever appended
    to.

    The definitions come first, module by module; the properties follow. *)

From Stdlib Require Import Floats.PrimFloat.
From Stdlib Require Import Lia.
From stdpp Require Import base option list relations gmap strings.

Set Warnings "-register-all".
Local Open Scope string_scope.
Local Open Scope list_scope.

(** * The embedding *)

(** ** JavaScript values *)

Module Js.

(** The JSON fragment of JavaScript values plus [undefined].  Numbers are
    IEEE 754 binary64, as in the language. *)
Inductive value : Type :=
| VUndefined
| VNull
| VBool (b : bool)
| VNum (n : float)
| VStr (s : string)
| VArr (items : list value)
| VObj (fields : list (string * value)).

(** [typeof v] *)
Definition typeof (v : value) : string :=
  match v with
  | VUndefined => "undefined"
  | VNull => "object"
  | VBool _ => "boolean"
  | VNum _ => "number"
  | VStr _ => "string"
  | VArr _ => "object"
  | VObj _ => "object"
  end.

(** [Array.isArray(v)] *)
Definition isArray (v : value) : bool :=
  match v with VArr _ => true | _ => false end.

(** [!v]: the falsy values are [undefined], [null], [false], [0], [-0],
    [NaN] and the empty string. *)
Definition is_falsy (v : value) : bool :=
  match v with
  | VUndefined | VNull => true
  | VBool b => negb b
  | VNum n => PrimFloat.eqb n 0%float || PrimFloat.is_nan n
  | VStr s => String.eqb s ""
  | VArr _ | VObj _ => false
  end.

(** [v === null] *)
Definition is_null (v : value) : bool :=
  match v with VNull => true | _ => false end.

(** [v === s] for a string literal [s] *)
Definition is_string_literal (v : value) (s : string) : bool :=
  match v with VStr s' => String.eqb s' s | _ => false end.

(** Property read [obj.key] on an object: the first field of that name, or
    [undefined]. *)
Fixpoint get_field (fields : list (string * value)) (key : string) : value :=
  match fields with
  | [] => VUndefined
  | (k, v) :: rest => if String.eqb k key then v else get_field rest key
  end.

(** What a [throw] carries.  The [TRPCError] class is not part of the
    sources: of an instance, the options its constructor was given ([code],
    [message], [cause]) are kept.  [Error] is the built-in error with its
    message; [Thrown] is any other thrown value, of a type [V] chosen by the
    user of the library. *)
Inductive thrown (V : Type) : Type :=
| TRPCError (code : string) (message : option string) (cause : option (thrown V))
| Error (message : string)
| Thrown (v : V).
Arguments TRPCError {V} code message cause.
Arguments Error {V} message.
Arguments Thrown {V} v.

(** Completion of a call: a normal return or a throw (for an [async]
    function: the promise is fulfilled or rejected). *)
Inductive outcome (V A : Type) : Type :=
| Return (a : A)
| Throw (e : thrown V).
Arguments Return {V A} a.
Arguments Throw {V A} e.

(** Modelled from the spec: [getErrorFromUnknown] of [internals/errors.ts] is
    not part of the sources.  Section 4.5: any thrown value is normalised into
    a canonical error carrying a code and the original cause; section 7: an
    error that is already shaped passes through. *)
Definition getErrorFromUnknown {V} (cause : thrown V) : thrown V :=
  match cause with
  | TRPCError _ _ _ => cause
  | _ => TRPCError "INTERNAL_SERVER_ERROR" None (Some cause)
  end.

End Js.

(** ** Procedure *)

Module Procedure.
Import Js.

Section Procedure.

(** The type parameters of the class.  [Value] is the type of thrown values
    that are not errors of the library; [Store] is whatever state the
    user-supplied resolver and middlewares read and write. *)
Context {Ctx Meta RawInput Input Output FinalOutput Value Store : Type}.

(** The log, which the source does not have: [Invoke index] when the function
    at [index] of [middlewaresWithResolver] is entered, and an entry for each
    call of the input parser, the resolver and the output parser. *)
Inductive event : Type :=
| Invoke (index : nat)
| ParseInput
| Resolve
| ParseOutput.

Record world : Type := World { store : Store; trace : list event }.

(** An [async] function body: it runs on the world and either returns or
    throws. *)
Definition M (A : Type) : Type := world -> outcome Value A * world.

Definition ret {A} (a : A) : M A := fun w => (Return a, w).
Definition throw {A} (e : thrown Value) : M A := fun w => (Throw e, w).
Definition bind {A B} (m : M A) (k : A -> M B) : M B :=
  fun w => match m w with
           | (Return a, w') => k a w'
           | (Throw e, w') => (Throw e, w')
           end.
Definition emit (e : event) : M unit :=
  fun w => (Return tt, World (store w) (trace w ++ [e])).
(** A user function that works on the store. *)
Definition liftS {A} (f : Store -> outcome Value A * Store) : M A :=
  fun w => let (o, s) := f (store w) in (o, World s (trace w)).

#[local] Notation "'let*' x ':=' m 'in' k" := (bind m (fun x => k))
  (at level 10, x pattern, m at level 100, k at level 200).

(** [{ marker, ok: true, data, ctx } | { ok: false, error }] *)
Inductive MiddlewareResult : Type :=
| MwOk (data : FinalOutput) (ctx : Ctx)
| MwError (error : thrown Value).

(** What a step evaluates to: a result object, or [undefined] when the
    function returned nothing. *)
Definition StepResult : Type := option MiddlewareResult.

(** [ProcedureCallOptions] *)
Record ProcedureCallOptions : Type := CallOptions {
  opts_ctx : Ctx;
  opts_rawInput : RawInput;
  opts_path : string;
  opts_type : string;
}.

(** The argument object of a middleware, without [next]. *)
Record MiddlewareArgs : Type := MwArgs {
  mw_ctx : Ctx;
  mw_type : string;
  mw_path : string;
  mw_rawInput : RawInput;
  mw_meta : Meta;
}.

(** The argument object of the resolver: [{ ...opts, ctx, input }]. *)
Record ResolverArgs : Type := ResArgs {
  res_ctx : Ctx;
  res_input : Input;
  res_rawInput : RawInput;
  res_path : string;
  res_type : string;
}.

(** The body of a user middleware.  All it can do with the library is call
    [next] (with or without a context) and wait for its result; besides that
    it reads and writes the store, returns a result (or nothing) or throws.
    A call of [next] is awaited before the body goes on. *)
Inductive Middleware : Type :=
| MwReturn (r : StepResult)
| MwThrow (e : thrown Value)
| MwNext (nextOpts : option Ctx) (k : StepResult -> Middleware)
| MwGet (k : Store -> Middleware)
| MwPut (s : Store) (k : Middleware).

Definition MiddlewareFunction : Type := MiddlewareArgs -> Middleware.

(** The fields of the class.  [parseInputFn] and [parseOutputFn] are the
    functions that [getParseFn] found in the two parsers: functions of the
    value alone, which return or throw.  The resolver also works on the
    store. *)
Record Procedure : Type := {
  middlewares : list MiddlewareFunction;
  resolver : ResolverArgs -> Store -> outcome Value Output * Store;
  parseInputFn : RawInput -> outcome Value Input;
  parseOutputFn : Output -> outcome Value FinalOutput;
  meta : Meta;
}.

(** One of [nextFns]: [async (nextOpts?: { ctx }) => ...] *)
Definition NextFn : Type := option Ctx -> M StepResult.

(** An element of [middlewaresWithResolver]: a function of the argument
    object, whose [next] field is [nextFns[index + 1]] ([None]: undefined). *)
Definition Step : Type := MiddlewareArgs -> option NextFn -> M StepResult.

(** Running a user middleware against its [next]. *)
Fixpoint run_middleware (next : option NextFn) (body : Middleware) : M StepResult :=
  match body with
  | MwReturn r => ret r
  | MwThrow e => throw e
  | MwNext nextOpts k =>
      match next with
      | Some nextFn => let* r := nextFn nextOpts in run_middleware next (k r)
      | None => throw (Error "next is not a function")
      end
  | MwGet k => fun w => run_middleware next (k (store w)) w
  | MwPut s k => fun w => run_middleware next k (World s (trace w))
  end.

Definition middleware_step (fn : MiddlewareFunction) : Step :=
  fun args next => run_middleware next (fn args).

(** [parseInput]: a parser failure becomes [BAD_REQUEST] with the cause. *)
Definition parseInput (p : Procedure) (rawInput : RawInput) : M Input :=
  let* _ := emit ParseInput in
  match parseInputFn p rawInput with
  | Return input => ret input
  | Throw cause => throw (TRPCError "BAD_REQUEST" None (Some cause))
  end.

(** [parseOutput]: a parser failure becomes [INTERNAL_SERVER_ERROR]. *)
Definition parseOutput (p : Procedure) (rawOutput : Output) : M FinalOutput :=
  let* _ := emit ParseOutput in
  match parseOutputFn p rawOutput with
  | Return data => ret data
  | Throw cause =>
      throw (TRPCError "INTERNAL_SERVER_ERROR" (Some "Output validation failed")
               (Some cause))
  end.

(** The resolver wrapped as the last "middleware". *)
Definition resolver_step (p : Procedure) (opts : ProcedureCallOptions) : Step :=
  fun args _ =>
    let* input := parseInput p (opts_rawInput opts) in
    let* _ := emit Resolve in
    let* rawOutput := liftS (resolver p (ResArgs (mw_ctx args) input (opts_rawInput opts)
                                      (opts_path opts) (opts_type opts))) in
    let* data := parseOutput p rawOutput in
    ret (Some (MwOk data (mw_ctx args))).

(** Result of [wrapCallSafe] *)
Inductive SafeResult (A : Type) : Type :=
| SafeOk (data : A)
| SafeError (error : thrown Value).
Arguments SafeOk {A} data.
Arguments SafeError {A} error.

(** Modelled from the spec: [wrapCallSafe] of [internals/wrapCallSafe.ts] is
    not part of the sources.  Section 4.1, step 4: any thrown error or
    rejected result of the wrapped invocation is caught and converted into a
    local [{ok: false, error}] value. *)
Definition wrapCallSafe {A} (fn : M A) : M (SafeResult A) :=
  fun w => match fn w with
           | (Return a, w') => (Return (SafeOk a), w')
           | (Throw e, w') => (Return (SafeError e), w')
           end.

(** The function that [middlewaresWithResolver.map] builds for [fn] at
    [index], given [nextFns[index + 1]].  Called without an argument it
    passes on [opts.ctx], the context of the call. *)
Definition nextFn (p : Procedure) (opts : ProcedureCallOptions)
    (fn : Step) (index : nat) (next : option NextFn) : NextFn :=
  fun nextOpts =>
    let* _ := emit (Invoke index) in
    let* res := wrapCallSafe
             (fn (MwArgs (match nextOpts with Some ctx => ctx | None => opts_ctx opts end)
                    (opts_type opts) (opts_path opts) (opts_rawInput opts) (meta p))
                 next) in
    match res with
    | SafeOk data => ret data
    | SafeError error => ret (Some (MwError (getErrorFromUnknown error)))
    end.

(** [nextFns], for the steps from [index] on. *)
Fixpoint nextFns (p : Procedure) (opts : ProcedureCallOptions)
    (fns : list Step) (index : nat) : list NextFn :=
  match fns with
  | [] => []
  | fn :: rest =>
      let tail := nextFns p opts rest (S index) in
      nextFn p opts fn index (head tail) :: tail
  end.

Definition middlewaresWithResolver (p : Procedure) (opts : ProcedureCallOptions)
    : list Step :=
  map middleware_step (middlewares p) ++ [resolver_step p opts].

(** [call] *)
Definition call (p : Procedure) (opts : ProcedureCallOptions) : M FinalOutput :=
  match head (nextFns p opts (middlewaresWithResolver p opts) 0) with
  | None => throw (Error "nextFns[0] is not a function")
  | Some first =>
      let* result := first None in
      match result with
      | None =>
          throw (TRPCError "INTERNAL_SERVER_ERROR"
                   (Some "No result from middlewares - did you forget to `return next()`?")
                   None)
      | Some (MwError error) => throw error
      | Some (MwOk data _) => ret data
      end
  end.

(** [inheritMiddlewares] *)
Definition inheritMiddlewares (p : Procedure) (mws : list MiddlewareFunction)
    : Procedure :=
  {| middlewares := mws ++ middlewares p;
     resolver := resolver p;
     parseInputFn := parseInputFn p;
     parseOutputFn := parseOutputFn p;
     meta := meta p |}.

(** *** How a middleware uses [next] *)

(** The body finishes by returning [r], without calling [next]. *)
Inductive returns (r : StepResult) : Middleware -> Prop :=
| returns_here : returns r (MwReturn r)
| returns_get k : (forall s, returns r (k s)) -> returns r (MwGet k)
| returns_put s k : returns r k -> returns r (MwPut s k).

(** The body calls [next] once and returns what it got: [return next()],
    possibly with a changed context and with work on the store around it. *)
Inductive forwards : Middleware -> Prop :=
| forwards_next nextOpts k :
    (forall r, returns r (k r)) -> forwards (MwNext nextOpts k)
| forwards_get k : (forall s, forwards (k s)) -> forwards (MwGet k)
| forwards_put s k : forwards k -> forwards (MwPut s k).

(** The body finishes (returning or throwing) without calling [next]. *)
Inductive no_next : Middleware -> Prop :=
| no_next_return r : no_next (MwReturn r)
| no_next_throw e : no_next (MwThrow e)
| no_next_get k : (forall s, no_next (k s)) -> no_next (MwGet k)
| no_next_put s k : no_next k -> no_next (MwPut s k).

(** The body calls [next] exactly once on every path; what it does with the
    result is its own business. *)
Inductive calls_next_once : Middleware -> Prop :=
| once_next nextOpts k :
    (forall r, no_next (k r)) -> calls_next_once (MwNext nextOpts k)
| once_get k : (forall s, calls_next_once (k s)) -> calls_next_once (MwGet k)
| once_put s k : calls_next_once k -> calls_next_once (MwPut s k).

(** [nextFns] for the configured middlewares [mws] followed by the resolver
    step, the first of them sitting at [index]. *)
Definition chain (p : Procedure) (opts : ProcedureCallOptions)
    (mws : list MiddlewareFunction) (index : nat) : list NextFn :=
  nextFns p opts (map middleware_step mws ++ [resolver_step p opts]) index.

(** A [next] function that always returns, and whose result [r] and added
    log entries [suf] satisfy [G]. *)
Definition yields (G : StepResult -> list event -> Prop) (nf : NextFn) : Prop :=
  forall nextOpts w, exists r suf,
    fst (nf nextOpts w) = Return r /\
    trace (snd (nf nextOpts w)) = trace w ++ suf /\ G r suf.

(** The log entries of a call whose middlewares each call [next] once: the
    steps [index .. index + k] in order, the input parser, the resolver, and
    the output parser if the resolver returned. *)
Definition straight_run (index k : nat) (suf : list event) : Prop :=
  exists tl, suf = map Invoke (seq index k)
                     ++ [Invoke (index + k); ParseInput; Resolve] ++ tl
             /\ (tl = [] \/ tl = [ParseOutput]).

(** [m] adds entries satisfying [Q] to the log, whatever its outcome. *)
Definition logs {A} (Q : list event -> Prop) (m : M A) : Prop :=
  forall w : world, exists suf,
    trace (snd (m w)) = trace w ++ suf /\ Q suf.

End Procedure.

Arguments M : clear implicits.
Arguments world : clear implicits.
Arguments MiddlewareResult : clear implicits.
Arguments StepResult : clear implicits.
Arguments ProcedureCallOptions : clear implicits.
Arguments MiddlewareArgs : clear implicits.
Arguments ResolverArgs : clear implicits.
Arguments Middleware : clear implicits.
Arguments MiddlewareFunction : clear implicits.
Arguments Procedure : clear implicits.
Arguments NextFn : clear implicits.
Arguments Step : clear implicits.

(** *** Where the chain meets the resolver *)

Section Reach.

Context {Ctx Meta RawInput Input Output FinalOutput Value Store : Type}.

(** What a body has done when it first calls [next]: the argument of that
    call and the store of that moment.  [None] when the body finishes without
    calling [next]. *)
Fixpoint until_next (body : Middleware Ctx FinalOutput Value Store) (s : Store)
    : option (option Ctx * Store) :=
  match body with
  | MwNext nextOpts _ => Some (nextOpts, s)
  | MwGet k => until_next (k s) s
  | MwPut s' k => until_next k s'
  | MwReturn _ | MwThrow _ => None
  end.

(** Going down the chain: [mws] are the middlewares still ahead, the first
    of them is called with [nextOpts] while the store is [s].  The result is
    the context that the resolver step is given and the store on which the
    resolver runs, when every middleware on the way calls [next].  The
    argument object of each middleware is the one [nextFns] builds. *)
Fixpoint reaches (p : Procedure Ctx Meta RawInput Input Output FinalOutput Value Store)
    (opts : ProcedureCallOptions Ctx RawInput)
    (mws : list (MiddlewareFunction Ctx Meta RawInput FinalOutput Value Store))
    (nextOpts : option Ctx) (s : Store) : option (Ctx * Store) :=
  let ctx := match nextOpts with Some ctx => ctx | None => opts_ctx opts end in
  match mws with
  | [] => Some (ctx, s)
  | fn :: rest =>
      match until_next (fn (MwArgs ctx (opts_type opts) (opts_path opts)
                              (opts_rawInput opts) (meta p))) s with
      | Some (nextOpts', s') => reaches p opts rest nextOpts' s'
      | None => None
      end
  end.

(** The body never writes the store. *)
Inductive keeps_store : Middleware Ctx FinalOutput Value Store -> Prop :=
| keeps_return r : keeps_store (MwReturn r)
| keeps_throw e : keeps_store (MwThrow e)
| keeps_next nextOpts k :
    (forall r, keeps_store (k r)) -> keeps_store (MwNext nextOpts k)
| keeps_get k : (forall s, keeps_store (k s)) -> keeps_store (MwGet k).

End Reach.

(** *** Middlewares that sign in *)

Section Announcing.

Context {Ctx Meta RawInput FinalOutput Value Label : Type}.

(** The store is a register of labels.  [announcing label fn] is the
    middleware that writes [label] at the end of the register when it is
    entered and then goes on as [fn]:
    [async (args) => { register.push(label); return fn(args) }]. *)
Definition announcing (label : Label)
    (fn : MiddlewareFunction Ctx Meta RawInput FinalOutput Value (list Label))
    : MiddlewareFunction Ctx Meta RawInput FinalOutput Value (list Label) :=
  fun args => MwGet (fun register => MwPut (register ++ [label]) (fn args)).

End Announcing.

(** *** Concrete procedures *)

(** The [hello] query: the input must be a string, the resolver greets it and
    counts its calls in the store; the output parser is a parameter. *)
Definition hello (mws : list (MiddlewareFunction string unit value string value nat))
    (output_ok : bool) : Procedure string unit value string string string value nat :=
  {| middlewares := mws;
     resolver := fun args calls => (Return ("hello " ++ res_input args)%string, S calls);
     parseInputFn := fun raw =>
       match raw with
       | VStr name => Return name
       | _ => Throw (Thrown (VStr "Expected string"))
       end;
     parseOutputFn := fun out : string =>
       if output_ok then Return out else Throw (Thrown (VStr "Expected number"));
     meta := tt |}.

(** A middleware that refuses every request before calling [next]. *)
Definition refuse : MiddlewareFunction string unit value string value nat :=
  fun _ => MwThrow (TRPCError "UNAUTHORIZED" None None).

(** [async ({ next }) => next()] *)
Definition pass : MiddlewareFunction string unit value string value nat :=
  fun _ => MwNext None (fun r => MwReturn r).

(** [async ({ next }) => { await next(); }]: the result is not returned. *)
Definition forgetful : MiddlewareFunction string unit value string value nat :=
  fun _ => MwNext None (fun _ => MwReturn None).

Definition query (raw : value) : ProcedureCallOptions string value :=
  CallOptions "anonymous" raw "hello" "query".

Definition fresh : world nat := World 0 [].

(** *** Construction *)

Section Construction.

Context {Ctx Meta RawInput Input Output FinalOutput Value Store : Type}.

(** [ParseFn<T>] *)
Definition ParseFn (A B : Type) : Type := A -> outcome Value B.

(** [ProcedureParser<T>] as [getParseFn] looks at it: a function, or an
    object in which each of [parseAsync], [parse], [validateSync] and
    [create] is a function ([Some]) or not. *)
Inductive ProcedureParser (A B : Type) : Type :=
| ParserFunction (fn : ParseFn A B)
| ParserObject (parseAsync parse validateSync create : option (ParseFn A B)).
Arguments ParserFunction {A B} fn.
Arguments ParserObject {A B} parseAsync parse validateSync create.

(** [getParseFn] *)
Definition getParseFn {A B} (procedureParser : ProcedureParser A B)
    : outcome Value (ParseFn A B) :=
  match procedureParser with
  | ParserFunction parser => Return parser
  | ParserObject (Some parseAsync) _ _ _ => Return parseAsync
  | ParserObject None (Some parse) _ _ => Return parse
  | ParserObject None None (Some validateSync) _ => Return validateSync
  | ParserObject None None None (Some create) => Return create
  | ParserObject None None None None => Throw (Error "Could not find a validator fn")
  end.

(** [ProcedureOptions] *)
Record ProcedureOptions : Type := {
  options_middlewares :
    list (MiddlewareFunction Ctx Meta RawInput FinalOutput Value Store);
  options_resolver :
    ResolverArgs Ctx RawInput Input -> Store -> outcome Value Output * Store;
  options_inputParser : ProcedureParser RawInput Input;
  options_outputParser : ProcedureParser Output FinalOutput;
  options_meta : Meta;
}.

(** The constructor of the class: the two parse functions are looked up
    once, here. *)
Definition new_Procedure (opts : ProcedureOptions)
    : outcome Value
        (Procedure Ctx Meta RawInput Input Output FinalOutput Value Store) :=
  match getParseFn (options_inputParser opts) with
  | Throw e => Throw e
  | Return parseInputFn =>
      match getParseFn (options_outputParser opts) with
      | Throw e => Throw e
      | Return parseOutputFn =>
          Return {| middlewares := options_middlewares opts;
                    resolver := options_resolver opts;
                    parseInputFn := parseInputFn;
                    parseOutputFn := parseOutputFn;
                    meta := options_meta opts |}
      end
  end.

End Construction.

Arguments ParseFn : clear implicits.
Arguments ProcedureParser : clear implicits.
Arguments ParserFunction {Value A B} fn.
Arguments ParserObject {Value A B} parseAsync parse validateSync create.
Arguments ProcedureOptions : clear implicits.

Section CreateProcedure.

(** [createProcedure] works on raw JavaScript values: the raw input, the
    parsed input (the default parser returns [undefined]) and thrown values
    are of type [value].  The output keeps its type, and the parsed output
    has the same one, as the default output parser needs. *)
Context {Ctx Meta Output Store : Type}.

(** [CreateProcedureOptions]: [input] and [output] may be missing. *)
Record CreateProcedureOptions : Type := {
  create_input : option (ProcedureParser value value value);
  create_output : option (ProcedureParser value Output Output);
  create_resolve :
    ResolverArgs Ctx value value -> Store -> outcome value Output * Store;
  create_meta : Meta;
}.

(** [input != null] *)
Definition not_nullish (v : value) : bool :=
  match v with VUndefined | VNull => false | _ => true end.

(** The input parser of a procedure declared without [input]. *)
Definition no_input_expected : ParseFn value value value :=
  fun input =>
    if not_nullish input
    then Throw (TRPCError "BAD_REQUEST" (Some "No input expected") None)
    else Return VUndefined.

(** [createProcedure] *)
Definition createProcedure (opts : CreateProcedureOptions)
    : outcome value (Procedure Ctx Meta value value Output Output value Store) :=
  let inputParser :=
    match create_input opts with
    | Some input => input
    | None => ParserFunction no_input_expected
    end in
  let outputParser :=
    match create_output opts with
    | Some output => output
    | None => ParserFunction (fun output => Return output)
    end in
  new_Procedure {| options_inputParser := inputParser;
                   options_resolver := create_resolve opts;
                   options_middlewares := [];
                   options_outputParser := outputParser;
                   options_meta := create_meta opts |}.

End CreateProcedure.

Arguments CreateProcedureOptions : clear implicits.

(** A procedure declared with a resolver only: it counts its calls and
    answers with the input it was given. *)
Definition bare : CreateProcedureOptions string unit value nat :=
  {| create_input := None;
     create_output := None;
     create_resolve := fun args calls => (Return (res_input args), S calls);
     create_meta := tt |}.

(** A resolver that throws a plain value, and one that throws an error of
    the library. *)
Definition failing (e : thrown value)
    : Procedure string unit value string string string value nat :=
  {| middlewares := [pass];
     resolver := fun args calls => (Throw e, S calls);
     parseInputFn := parseInputFn (hello [] true);
     parseOutputFn := parseOutputFn (hello [] true);
     meta := tt |}.

(** A middleware that goes on with the context of an administrator:
    [async ({ next }) => next({ ctx: 'admin' })]. *)
Definition as_admin : MiddlewareFunction string unit value string value nat :=
  fun _ => MwNext (Some "admin") (fun r => MwReturn r).

(** The [hello] query for administrators only: the resolver looks at the
    context it is given. *)
Definition restricted (mws : list (MiddlewareFunction string unit value string value nat))
    (output_ok : bool) : Procedure string unit value string string string value nat :=
  {| middlewares := mws;
     resolver := fun args calls =>
       if String.eqb (res_ctx args) "admin"
       then (Return ("hello " ++ res_input args)%string, S calls)
       else (Throw (TRPCError "FORBIDDEN" None None), calls);
     parseInputFn := parseInputFn (hello [] true);
     parseOutputFn := parseOutputFn (hello [] output_ok);
     meta := tt |}.

(** The [hello] query with a register of labels as its store: the
    middlewares sign in with their labels, the resolver with 'resolver'. *)
Definition audited
    (labelled : list (string * MiddlewareFunction string unit value string value (list string)))
    : Procedure string unit value string string string value (list string) :=
  {| middlewares := map (fun lf => announcing (fst lf) (snd lf)) labelled;
     resolver := fun args register =>
       (Return ("hello " ++ res_input args)%string, register ++ ["resolver"]);
     parseInputFn := parseInputFn (hello [] true);
     parseOutputFn := fun out => Return out;
     meta := tt |}.

(** [async ({ next }) => next({ ctx: 'admin' })] and
    [async ({ next }) => { const result = await next(); if (!result.ok) throw
    'failed'; return result }], on a register. *)
Definition promote : MiddlewareFunction string unit value string value (list string) :=
  fun _ => MwNext (Some "admin") (fun r => MwReturn r).
Definition strict : MiddlewareFunction string unit value string value (list string) :=
  fun _ => MwNext None (fun r =>
    match r with
    | Some (MwOk _ _) => MwReturn r
    | _ => MwThrow (Thrown (VStr "failed"))
    end).

(** The world of a call on an empty register. *)
Definition blank : world (list string) := World [] [].

End Procedure.

(** ** Observable *)

Module Observable.

Section Observable.

Context {TValue TError : Type}.

(** [TeardownLogic = Unsubscribable | (() => void) | void] *)
Inductive TeardownLogic : Type :=
| TeardownVoid
| TeardownFunction
| TeardownUnsubscribable.

(** [Partial<Observer>]: which of the three callbacks the downstream
    observer has. *)
Record Observer : Type := {
  has_next : bool;
  has_error : bool;
  has_complete : bool;
}.

(** The log: calls of the downstream observer's callbacks and of the
    producer's teardown ([teardownRef()] or [teardownRef.unsubscribe()]). *)
Inductive event : Type :=
| OnNext (value : TValue)
| OnError (err : TError)
| OnComplete
| TornDown.

(** The variables that [subscribe] closes over.  [teardownRef = None] is
    [null]: the producer has not returned its teardown yet. *)
Record state : Type := State {
  teardownRef : option TeardownLogic;
  isDone : bool;
  unsubscribed : bool;
  teardownImmediately : bool;
  log : list event;
}.

Definition set_teardownRef (t : TeardownLogic) (st : state) : state :=
  State (Some t) (isDone st) (unsubscribed st) (teardownImmediately st) (log st).
Definition set_isDone (st : state) : state :=
  State (teardownRef st) true (unsubscribed st) (teardownImmediately st) (log st).
Definition set_unsubscribed (st : state) : state :=
  State (teardownRef st) (isDone st) true (teardownImmediately st) (log st).
Definition set_teardownImmediately (st : state) : state :=
  State (teardownRef st) (isDone st) (unsubscribed st) true (log st).
Definition record (e : event) (st : state) : state :=
  State (teardownRef st) (isDone st) (unsubscribed st) (teardownImmediately st)
    (log st ++ [e]).

(** A call of one of the four functions of a subscription, together with
    what the user code it reaches does in turn: [during] are the calls the
    downstream callback makes before it returns, [teardown] the calls the
    producer's teardown makes, if this call is the one that runs it.  User
    code is taken to return: what it calls back is arbitrary, but a callback
    or a teardown that throws is not part of this model. *)
Inductive call : Type :=
| Next (value : TValue) (during : list call)
| Error (err : TError) (during : list call) (teardown : list call)
| Complete (during : list call) (teardown : list call)
| Unsubscribe (teardown : list call).

(** [unsubscribe()], with the body of the teardown as a parameter. *)
Definition unsubscribe (run_teardown : state -> state) (st : state) : state :=
  match teardownRef st with
  | None => set_teardownImmediately st
  | Some t =>
      if unsubscribed st then st
      else
        let st := set_unsubscribed st in
        match t with
        | TeardownFunction => run_teardown (record TornDown st)
        | TeardownUnsubscribable => run_teardown (record TornDown st)
        | TeardownVoid => st
        end
  end.

(** The wrapped observer's [next], [error] and [complete], and
    [unsubscribe]. *)
Fixpoint exec (observer : Observer) (c : call) (st : state) {struct c} : state :=
  let run := fix run (cs : list call) (st : state) {struct cs} : state :=
    match cs with
    | [] => st
    | c :: cs => run cs (exec observer c st)
    end in
  match c with
  | Next value during =>
      if isDone st then st
      else if has_next observer then run during (record (OnNext value) st)
      else st
  | Error err during teardown =>
      if isDone st then st
      else
        let st := set_isDone st in
        let st := if has_error observer then run during (record (OnError err) st)
                  else st in
        unsubscribe (run teardown) st
  | Complete during teardown =>
      if isDone st then st
      else
        let st := set_isDone st in
        let st := if has_complete observer then run during (record OnComplete st)
                  else st in
        unsubscribe (run teardown) st
  | Unsubscribe teardown => unsubscribe (run teardown) st
  end.

(** A sequence of calls, one after the other. *)
Fixpoint exec_all (observer : Observer) (cs : list call) (st : state) : state :=
  match cs with
  | [] => st
  | c :: cs => exec_all observer cs (exec observer c st)
  end.

Definition pending : state := State None false false false [].

(** [subscribe(observer)]: the producer's function runs ([producer]: the
    calls it makes before it returns), its result [t] is stored, and a
    teardown asked for in the meantime is run ([teardown]: what the teardown
    does then).  The state after it is the one the returned [unsubscribe] and
    the producer's later calls work on. *)
Definition subscribe (observer : Observer) (producer : list call)
    (t : TeardownLogic) (teardown : list call) : state :=
  let st := exec_all observer producer pending in
  let st := set_teardownRef t st in
  if teardownImmediately st then unsubscribe (exec_all observer teardown) st
  else st.

(** Entries of the log that are calls of the observer's callbacks. *)
Definition is_callback (e : event) : bool :=
  match e with TornDown => false | _ => true end.
Definition callbacks (l : list event) : list event := List.filter is_callback l.

(** Number of times the teardown ran. *)
Definition is_teardown (e : event) : bool :=
  match e with TornDown => true | _ => false end.
Definition teardowns (l : list event) : nat := length (List.filter is_teardown l).

Definition has_teardown (t : TeardownLogic) : bool :=
  match t with TeardownVoid => false | _ => true end.

(** The atomic updates of the state that the four functions are made of,
    each with the test that guards it in the source. *)
Inductive step (observer : Observer) : state -> state -> Prop :=
| step_next value st :
    isDone st = false -> has_next observer = true ->
    step observer st (record (OnNext value) st)
| step_error err st :
    isDone st = false -> has_error observer = true ->
    step observer st (record (OnError err) (set_isDone st))
| step_complete st :
    isDone st = false -> has_complete observer = true ->
    step observer st (record OnComplete (set_isDone st))
| step_done st :
    isDone st = false -> step observer st (set_isDone st)
| step_defer st :
    teardownRef st = None -> step observer st (set_teardownImmediately st)
| step_teardown t st :
    teardownRef st = Some t -> unsubscribed st = false -> has_teardown t = true ->
    step observer st (record TornDown (set_unsubscribed st))
| step_no_teardown st :
    teardownRef st = Some TeardownVoid -> unsubscribed st = false ->
    step observer st (set_unsubscribed st).

(** What holds of every state a subscription can be in: the teardown has run
    once if [unsubscribed] is set and there is a teardown to run, and not at
    all otherwise. *)
Definition consistent (st : state) : Prop :=
  match teardownRef st with
  | None => unsubscribed st = false /\ teardowns (log st) = 0
  | Some t =>
      teardowns (log st) = if unsubscribed st && has_teardown t then 1 else 0
  end.

End Observable.

Arguments state : clear implicits.
Arguments call : clear implicits.
Arguments event : clear implicits.

(** *** Concrete subscriptions *)

Definition full : Observer := {| has_next := true; has_error := true; has_complete := true |}.

End Observable.

(** ** The postMessage adapter *)

Module PM.
Import Js.

Section Handler.

(** What the adapter takes from outside the repository's sources:
    [transformer.input.deserialize] and [router.getErrorShape] of the router,
    and three conversions of the language: [ToNumber] (applied by the global
    [isNaN] to its argument), and the string conversions of numbers and of
    objects (applied by a template literal). *)
Variable deserialize : value -> outcome value value.
Variable ToNumber : value -> float.
Variable numberToString : float -> string.
Variable objectToString : value -> string.

(** The argument of [router.getErrorShape]; [ctx] is always [undefined] in
    this adapter and is left out.  [shape_path = None] is [undefined]. *)
Record ErrorShapeArgs : Type := ShapeArgs {
  shape_error : thrown value;
  shape_type : string;
  shape_path : option string;
  shape_input : value;
}.

Variable getErrorShape : ErrorShapeArgs -> value.

(** [obj.key]; reading a property of a value that is not an object gives
    [undefined] here (the adapter only reads after [assertIsObject]). *)
Definition get (obj : value) (key : string) : value :=
  match obj with VObj fields => get_field fields key | _ => VUndefined end.

(** The global [isNaN(v)]: [ToNumber(v)] is NaN; a number is its own
    [ToNumber]. *)
Definition isNaN (v : value) : bool :=
  match v with
  | VNum n => PrimFloat.is_nan n
  | _ => PrimFloat.is_nan (ToNumber v)
  end.

(** [`${v}`] *)
Definition toString (v : value) : string :=
  match v with
  | VUndefined => "undefined"
  | VNull => "null"
  | VBool true => "true"
  | VBool false => "false"
  | VNum n => numberToString n
  | VStr s => s
  | VArr _ | VObj _ => objectToString v
  end.

(** Sequencing of calls that may throw. *)
Definition andThen {A B} (o : outcome value A) (k : A -> outcome value B)
    : outcome value B :=
  match o with Return a => k a | Throw e => Throw e end.

#[local] Notation "'let*' x ':=' m 'in' k" := (andThen m (fun x => k))
  (at level 10, x pattern, m at level 100, k at level 200).

(** *** Envelope validation *)

Definition assertIsObject (obj : value) : outcome value unit :=
  if negb (String.eqb (typeof obj) "object") || isArray obj || is_falsy obj
  then Throw (Error "Not an object")
  else Return tt.

Definition assertIsProcedureType (obj : value) : outcome value unit :=
  if negb (is_string_literal obj "query")
     && negb (is_string_literal obj "subscription")
     && negb (is_string_literal obj "mutation")
  then Throw (Error "Invalid procedure type")
  else Return tt.

(** The condition of the [if] in [assertIsRequestId]. *)
Definition assertIsRequestId_guard (obj : value) : bool :=
  negb (is_null obj)
  && String.eqb (typeof obj) "number"
  && isNaN obj
  && negb (String.eqb (typeof obj) "string").

Definition assertIsRequestId (obj : value) : outcome value unit :=
  if assertIsRequestId_guard obj
  then Throw (Error "Invalid request id")
  else Return tt.

Definition assertIsString (obj : value) : outcome value unit :=
  if negb (String.eqb (typeof obj) "string")
  then Throw (Error "Invalid string")
  else Return tt.

Definition assertIsJSONRPC2OrUndefined (obj : value) : outcome value unit :=
  if negb (String.eqb (typeof obj) "undefined") && negb (is_string_literal obj "2.0")
  then Throw (Error "Must be JSONRPC 2.0")
  else Return tt.

(** [TRPCRequest].  The assertions above do not make [id] a number, a string
    or [null], and do not touch [jsonrpc] beyond its check, so both are kept
    as values.  [params = None] is [undefined]. *)
Record Params : Type := { input : value; path : string }.
Record TRPCRequest : Type := {
  jsonrpc : value;
  id : value;
  method : string;
  params : option Params;
}.

(** The string a value is, once [typeof] says it is one. *)
Definition string_of (v : value) : string :=
  match v with VStr s => s | _ => "" end.

Definition parseMessage (obj : value) : outcome value TRPCRequest :=
  let* _ := assertIsObject obj in
  let method := get obj "method" in
  let params := get obj "params" in
  let id := get obj "id" in
  let jsonrpc := get obj "jsonrpc" in
  let* _ := assertIsRequestId id in
  let* _ := assertIsJSONRPC2OrUndefined jsonrpc in
  if is_string_literal method "subscription.stop"
  then Return {| jsonrpc := VUndefined; id := id; method := "subscription.stop";
                 params := None |}
  else
    let* _ := assertIsProcedureType method in
    let* _ := assertIsObject params in
    let rawInput := get params "input" in
    let path := get params "path" in
    let* _ := assertIsString path in
    let* input := deserialize rawInput in
    Return {| jsonrpc := jsonrpc; id := id; method := string_of method;
              params := Some {| input := input; path := string_of path |} |}.

(** *** Responses *)

Inductive TRPCResult : Type :=
| ResultData (data : value)
| ResultStarted
| ResultStopped.

(** [{ id, result }] or [{ id, error }], before [transformTRPCResponse] and
    [JSON.stringify]. *)
Inductive TRPCResponse : Type :=
| ResponseResult (id : value) (result : TRPCResult)
| ResponseError (id : value) (error : value).

(** *** Subscriptions *)

(** A [Subscription] object is known by its reference. *)
Definition SubRef : Type := nat.

(** The three functions [handleRequest] attaches with [sub.on]; each closes
    over the request it was attached for. *)
Inductive listener : Type :=
| DataListener (id : value)
| ErrorListener (id : value) (type : string) (path : string) (input : value)
| DestroyListener (id : value).

(** Modelled from the spec: the [Subscription] class of [subscription.ts] is
    not part of the sources.  Section 3: an entity with lifecycle events
    [data], [error], [destroy] and the operations [start()] and [destroy()].
    Of the object only what the adapter relies on is kept: whether it was
    destroyed, and the listeners attached to it. *)
Record Subscription : Type := {
  isDestroyed : bool;
  listeners : list listener;
}.

(** The arguments of an [opts.onError] call ([ctx] and [req] are
    [undefined]). *)
Record OnErrorArgs : Type := {
  reported_error : thrown value;
  reported_path : string;
  reported_type : string;
  reported_input : value;
}.

(** What [applyPMSHandler] closes over and acts on: the map, the
    subscription objects it was handed, and, as logs, the responses posted
    and the errors reported.  [clientSubscriptions] lists the entries of the
    [Map] in insertion order. *)
Record handler : Type := Handler {
  clientSubscriptions : list (value * SubRef);
  subscriptions : gmap SubRef Subscription;
  posted : list TRPCResponse;
  reported : list OnErrorArgs;
}.

(** Key equality of a [Map] (SameValueZero).  Objects and arrays are equal
    only to themselves as references; the ids compared here come from
    different parsed messages, which never share one. *)
Definition sameValueZero (a b : value) : bool :=
  match a, b with
  | VUndefined, VUndefined => true
  | VNull, VNull => true
  | VBool x, VBool y => Bool.eqb x y
  | VNum x, VNum y => PrimFloat.eqb x y || (PrimFloat.is_nan x && PrimFloat.is_nan y)
  | VStr x, VStr y => String.eqb x y
  | _, _ => false
  end.

Fixpoint Map_get (m : list (value * SubRef)) (key : value) : option SubRef :=
  match m with
  | [] => None
  | (k, sub) :: rest => if sameValueZero k key then Some sub else Map_get rest key
  end.

Definition Map_has (m : list (value * SubRef)) (key : value) : bool :=
  match Map_get m key with Some _ => true | None => false end.

Fixpoint Map_delete (m : list (value * SubRef)) (key : value) : list (value * SubRef) :=
  match m with
  | [] => []
  | (k, sub) :: rest =>
      if sameValueZero k key then Map_delete rest key
      else (k, sub) :: Map_delete rest key
  end.

Fixpoint Map_set (m : list (value * SubRef)) (key : value) (sub : SubRef)
    : list (value * SubRef) :=
  match m with
  | [] => [(key, sub)]
  | (k, old) :: rest =>
      if sameValueZero k key then (k, sub) :: rest
      else (k, old) :: Map_set rest key sub
  end.

Definition set_clientSubscriptions (m : list (value * SubRef)) (h : handler) : handler :=
  Handler m (subscriptions h) (posted h) (reported h).

Definition set_subscriptions (subs : gmap SubRef Subscription) (h : handler) : handler :=
  Handler (clientSubscriptions h) subs (posted h) (reported h).

(** [respond(untransformedJSON)] *)
Definition respond (json : TRPCResponse) (h : handler) : handler :=
  Handler (clientSubscriptions h) (subscriptions h) (posted h ++ [json]) (reported h).

(** [opts.onError?.(...)] *)
Definition onError (args : OnErrorArgs) (h : handler) : handler :=
  Handler (clientSubscriptions h) (subscriptions h) (posted h) (reported h ++ [args]).

(** The bodies of the three listeners. *)
Definition run_listener_data (id data : value) (h : handler) : handler :=
  respond (ResponseResult id (ResultData data)) h.

Definition run_listener_error (id : value) (type path : string) (input : value)
    (_error : thrown value) (h : handler) : handler :=
  let error := getErrorFromUnknown _error in
  let json := ResponseError id
                (getErrorShape (ShapeArgs error type (Some path) input)) in
  let h := onError {| reported_error := error; reported_path := path;
                      reported_type := type; reported_input := input |} h in
  respond json h.

Definition run_listener_destroy (id : value) (h : handler) : handler :=
  respond (ResponseResult id ResultStopped) h.

(** An event of a subscription. *)
Inductive sub_event : Type :=
| EmitData (data : value)
| EmitError (err : thrown value)
| EmitDestroy.

Definition run_listener (ev : sub_event) (l : listener) (h : handler) : handler :=
  match ev, l with
  | EmitData data, DataListener id => run_listener_data id data h
  | EmitError err, ErrorListener id type path input =>
      run_listener_error id type path input err h
  | EmitDestroy, DestroyListener id => run_listener_destroy id h
  | _, _ => h
  end.

(** Modelled from the spec: event delivery of the [Subscription] class,
    which is not part of the sources.  An event reaches the listeners
    attached for it, in the order they were attached. *)
Definition Subscription_emit (sub : SubRef) (ev : sub_event) (h : handler) : handler :=
  match subscriptions h !! sub with
  | Some s => fold_left (fun h l => run_listener ev l h) (listeners s) h
  | None => h
  end.

(** Modelled from the spec: [sub.on(event, listener)] of the [Subscription]
    class. *)
Definition Subscription_on (sub : SubRef) (l : listener) (h : handler) : handler :=
  match subscriptions h !! sub with
  | Some s =>
      set_subscriptions
        (<[sub := {| isDestroyed := isDestroyed s; listeners := listeners s ++ [l] |}]>
           (subscriptions h)) h
  | None => h
  end.

(** Modelled from the spec: [sub.destroy()] of the [Subscription] class.  A
    live subscription becomes destroyed and its [destroy] event is
    delivered. *)
Definition Subscription_destroy (sub : SubRef) (h : handler) : handler :=
  match subscriptions h !! sub with
  | Some s =>
      if isDestroyed s then h
      else
        let h := set_subscriptions
                   (<[sub := {| isDestroyed := true; listeners := listeners s |}]>
                      (subscriptions h)) h in
        Subscription_emit sub EmitDestroy h
  | None => h
  end.

(** *** callProcedure *)

(** The method of [router.createCaller(ctx)] that [callProcedure] calls. *)
Inductive caller_method : Type :=
| CallerQuery (path : string) (input : value)
| CallerMutation (path : string) (input : value)
| CallerSubscription (path : string) (input : value).

(** [callProcedure], up to the call of the router's caller: which method it
    calls, or the error for an unknown type. *)
Definition callProcedure (type path : string) (input : value)
    : outcome value caller_method :=
  if String.eqb type "query" then Return (CallerQuery path input)
  else if String.eqb type "mutation" then Return (CallerMutation path input)
  else if String.eqb type "subscription" then Return (CallerSubscription path input)
  else Throw (Error ("Unknown procedure type " ++ type)%string).

(** What [callProcedure] resolves to: a plain value, or a [Subscription]
    object ([result instanceof Subscription]). *)
Inductive ProcedureResult : Type :=
| Plain (data : value)
| IsSubscription (sub : SubRef).

(** *** handleRequest *)

(** Where a call of [handleRequest] stands: its promise is settled, or it
    is suspended at [await callProcedure(...)] or at [await sub.start()]. *)
Inductive request_state : Type :=
| Settled (result : outcome value unit)
| AwaitingProcedure (msg : TRPCRequest)
| AwaitingStart (msg : TRPCRequest) (sub : SubRef).

(** The [catch] block of [handleRequest]. *)
Definition handleRequest_catch (id : value) (type path : string) (input : value)
    (cause : thrown value) (h : handler) : handler :=
  let error := getErrorFromUnknown cause in
  let json := getErrorShape (ShapeArgs error type (Some path) input) in
  let h := onError {| reported_error := error; reported_path := path;
                      reported_type := type; reported_input := input |} h in
  respond (ResponseError id json) h.

(** [handleRequest(msg)] up to its first [await]. *)
Definition handleRequest (msg : TRPCRequest) (h : handler) : request_state * handler :=
  if is_null (id msg)
  then (Settled (Throw (TRPCError "BAD_REQUEST" (Some "`id` is required") None)), h)
  else if String.eqb (method msg) "subscription.stop"
  then
    let h := match Map_get (clientSubscriptions h) (id msg) with
             | Some sub => Subscription_destroy sub h
             | None => h
             end in
    (Settled (Return tt),
     set_clientSubscriptions (Map_delete (clientSubscriptions h) (id msg)) h)
  else
    match params msg with
    | Some _ => (AwaitingProcedure msg, h)
    | None =>
        (* destructuring [undefined]: a TypeError, outside the try block *)
        (Settled (Throw (Error "Cannot destructure msg.params")), h)
    end.

(** [handleRequest(msg)] from the moment [callProcedure] settles with
    [result], up to [await sub.start()]. *)
Definition handleRequest_called (msg : TRPCRequest) (p : Params)
    (result : outcome value ProcedureResult) (h : handler)
    : request_state * handler :=
  let type := method msg in
  match result with
  | Throw cause =>
      (Settled (Return tt),
       handleRequest_catch (id msg) type (path p) (input p) cause h)
  | Return (Plain data) =>
      (Settled (Return tt), respond (ResponseResult (id msg) (ResultData data)) h)
  | Return (IsSubscription sub) =>
      if Map_has (clientSubscriptions h) (id msg)
      then
        let h := Subscription_destroy sub h in
        let cause := TRPCError "BAD_REQUEST"
                       (Some ("Duplicate id " ++ toString (id msg))%string) None in
        (Settled (Return tt),
         handleRequest_catch (id msg) type (path p) (input p) cause h)
      else
        let h := set_clientSubscriptions
                   (Map_set (clientSubscriptions h) (id msg) sub) h in
        let h := Subscription_on sub (DataListener (id msg)) h in
        let h := Subscription_on sub
                   (ErrorListener (id msg) type (path p) (input p)) h in
        let h := Subscription_on sub (DestroyListener (id msg)) h in
        let h := respond (ResponseResult (id msg) ResultStarted) h in
        (AwaitingStart msg sub, h)
  end.

(** [handleRequest(msg)] from the moment [sub.start()] settles. *)
Definition handleRequest_started (msg : TRPCRequest) (p : Params)
    (result : outcome value unit) (h : handler) : request_state * handler :=
  match result with
  | Return _ => (Settled (Return tt), h)
  | Throw cause =>
      (Settled (Return tt),
       handleRequest_catch (id msg) (method msg) (path p) (input p) cause h)
  end.

(** *** The message listener and [close] *)

(** [msgs.map((raw) => parseMessage(raw, transformer))]: the first throw
    ends the map. *)
Fixpoint parse_all (raws : list value) : outcome value (list TRPCRequest) :=
  match raws with
  | [] => Return []
  | raw :: rest =>
      let* msg := parseMessage raw in
      let* msgs := parse_all rest in
      Return (msg :: msgs)
  end.

(** [.map(handleRequest)]: each call runs up to its first [await] before the
    next one starts. *)
Fixpoint dispatch_all (msgs : list TRPCRequest) (h : handler)
    : list request_state * handler :=
  match msgs with
  | [] => ([], h)
  | msg :: rest =>
      let (promise, h) := handleRequest msg h in
      let (promises, h) := dispatch_all rest h in
      (promise :: promises, h)
  end.

(** The [catch] block of the listener. *)
Definition listener_catch (cause : thrown value) (h : handler) : handler :=
  let error := TRPCError "PARSE_ERROR" None (Some cause) in
  respond (ResponseError VNull (getErrorShape (ShapeArgs error "unknown" None VUndefined))) h.

(** Where a run of the listener stands: finished, or suspended at
    [await Promise.all(promises)]. *)
Inductive listener_state : Type :=
| Handled
| AwaitingAll (promises : list request_state).

(** The listener from the result [msgJSON] of
    [JSON.parse(message.toString())] up to [await Promise.all(promises)]. *)
Definition onMessage (msgJSON : outcome value value) (h : handler)
    : listener_state * handler :=
  match msgJSON with
  | Throw cause => (Handled, listener_catch cause h)
  | Return msgJSON =>
      let msgs := match msgJSON with VArr items => items | _ => [msgJSON] end in
      match parse_all msgs with
      | Throw cause => (Handled, listener_catch cause h)
      | Return requests =>
          let (promises, h) := dispatch_all requests h in
          (AwaitingAll promises, h)
      end
  end.

(** The listener from the moment [Promise.all(promises)] settles. *)
Definition onMessage_settled (result : outcome value unit) (h : handler) : handler :=
  match result with
  | Return _ => h
  | Throw cause => listener_catch cause h
  end.

(** [close()] *)
Definition close (h : handler) : handler :=
  let h := fold_left (fun h entry => Subscription_destroy (snd entry) h)
             (clientSubscriptions h) h in
  set_clientSubscriptions [] h.

(** A value that [JSON.parse] can return: no [undefined], no NaN and no
    infinity anywhere in it. *)
Fixpoint json (v : value) : bool :=
  match v with
  | VUndefined => false
  | VNull | VBool _ | VStr _ => true
  | VNum n => negb (PrimFloat.is_nan n) && negb (PrimFloat.is_infinity n)
  | VArr items => forallb json items
  | VObj fields => forallb (fun field => json (snd field)) fields
  end.

End Handler.

(** *** A concrete handler *)

(** The identity transformer. *)
Definition plain (v : value) : outcome value value := Return v.

(** [ToNumber] on the values whose conversion needs no parsing; strings and
    objects, which the adapter never passes to [isNaN], are sent to NaN. *)
Definition primitive_ToNumber (v : value) : float :=
  match v with
  | VNull => 0%float
  | VBool b => if b then 1%float else 0%float
  | VNum n => n
  | _ => PrimFloat.nan
  end.

(** The conversions of numbers and objects to strings; the ids below are
    strings, which a template literal leaves as they are. *)
Definition number_image (n : float) : string := "<number>".
Definition object_image (v : value) : string := "[object Object]".

(** An error formatter that keeps the code and the message. *)
Definition code_and_message (args : ErrorShapeArgs) : value :=
  match shape_error args with
  | TRPCError code (Some message) _ =>
      VObj [("code", VStr code); ("message", VStr message)]
  | TRPCError code None _ => VObj [("code", VStr code)]
  | Error message => VObj [("message", VStr message)]
  | Thrown v => v
  end.

(** The request [{ id: '7', method: 'subscription', params: { path:
    'randomNumber', input: null } }] and the matching stop request, as
    [JSON.parse] returns them. *)
Definition subscribe_7 : value :=
  VObj [("id", VStr "7"); ("method", VStr "subscription");
        ("params", VObj [("path", VStr "randomNumber"); ("input", VNull)])].
Definition stop_7 : value :=
  VObj [("id", VStr "7"); ("method", VStr "subscription.stop")].

Definition request_7 : TRPCRequest :=
  {| jsonrpc := VUndefined; id := VStr "7"; method := "subscription";
     params := Some {| input := VNull; path := "randomNumber" |} |}.
Definition params_7 : Params := {| input := VNull; path := "randomNumber" |}.

(** A handler that was handed two subscription objects, 0 and 1. *)
Definition idle : handler :=
  Handler [] (<[0 := {| isDestroyed := false; listeners := [] |}]>
                (<[1 := {| isDestroyed := false; listeners := [] |}]> ∅)) [] [].

(** The handler after the request above was answered with subscription 0. *)
Definition tracking_7 : handler :=
  snd (handleRequest_called number_image object_image code_and_message
         request_7 params_7 (Return (IsSubscription 0)) idle).

(** The stop request for id 7, parsed. *)
Definition stop_request_7 : TRPCRequest :=
  {| jsonrpc := VUndefined; id := VStr "7"; method := "subscription.stop";
     params := None |}.

(** [{ id: null, method: 'query', params: { path: 'hello' } }] and what
    [parseMessage] makes of it. *)
Definition query_without_id : value :=
  VObj [("id", VNull); ("method", VStr "query");
        ("params", VObj [("path", VStr "hello")])].
Definition request_without_id : TRPCRequest :=
  {| jsonrpc := VUndefined; id := VNull; method := "query";
     params := Some {| input := VUndefined; path := "hello" |} |}.

(** The steps of [parseMessage], one assertion at a time. *)
Ltac parse_steps H :=
  unfold parseMessage, andThen in H;
  repeat match type of H with
         | context [match ?a with Return _ => _ | Throw _ => _ end] =>
             let E := fresh "E" in destruct a as [[]|] eqn:E; [|discriminate H]
         | context [if ?b then _ else _] =>
             let E := fresh "E" in destruct b eqn:E
         end.

End PM.

(** * Properties *)

(** ** Procedure *)

Module ProcedureProps.
Import Js Procedure.

Section Properties.

Context {Ctx Meta RawInput Input Output FinalOutput Value Store : Type}.

Abbreviation Procedure :=
  (Procedure Ctx Meta RawInput Input Output FinalOutput Value Store).
Abbreviation ProcedureCallOptions := (ProcedureCallOptions Ctx RawInput).
Abbreviation Middleware := (Middleware Ctx FinalOutput Value Store).
Abbreviation MiddlewareFunction :=
  (MiddlewareFunction Ctx Meta RawInput FinalOutput Value Store).
Abbreviation StepResult := (StepResult Ctx FinalOutput Value).
Abbreviation NextFn := (NextFn Ctx FinalOutput Value Store).
Abbreviation M := (M Value Store).
Abbreviation world := (world Store).

Implicit Types (p : Procedure) (opts : ProcedureCallOptions)
  (body : Middleware) (w : world) (nf : NextFn) (mws : list MiddlewareFunction)
  (next : option NextFn).

Lemma chain_nil p opts index :
  head (chain p opts [] index)
  = Some (nextFn p opts (resolver_step p opts) index None).
Proof. reflexivity. Qed.

Lemma chain_cons p opts fn mws index :
  head (chain p opts (fn :: mws) index)
  = Some (nextFn p opts (middleware_step fn) index
            (head (chain p opts mws (S index)))).
Proof. reflexivity. Qed.

(** A body that does not call [next] leaves the log alone. *)
Lemma run_no_next next body :
  no_next body -> forall w, trace (snd (run_middleware next body w)) = trace w.
Proof.
  induction 1 as [r|e|k _ IH|s k _ IH]; intros w; simpl; auto.
  rewrite IH. reflexivity.
Qed.

Lemma run_returns next r body :
  returns r body ->
  forall w, fst (run_middleware next body w) = Return r
            /\ trace (snd (run_middleware next body w)) = trace w.
Proof.
  induction 1 as [|k _ IH|s k _ IH]; intros w; simpl; auto.
  destruct (IH (World s (trace w))) as [-> ->]. auto.
Qed.

(** A forwarding body yields whatever its [next] yields. *)
Lemma run_forwards G nf body :
  forwards body -> yields G nf ->
  forall w, exists r suf,
    fst (run_middleware (Some nf) body w) = Return r /\
    trace (snd (run_middleware (Some nf) body w)) = trace w ++ suf /\ G r suf.
Proof.
  intros Hb Hnf. induction Hb as [o k Hk|k _ IH|s k _ IH]; intros w; simpl.
  - destruct (Hnf o w) as (r & suf & Hr & Ht & HG).
    unfold bind. destruct (nf o w) as [[r'|e] w1]; simpl in *; [|discriminate].
    injection Hr as ->. destruct (run_returns (Some nf) r (k r) (Hk r) w1) as [H1 H2].
    exists r, suf. rewrite H1, H2. auto.
  - apply IH.
  - apply (IH (World s (trace w))).
Qed.

(** The wrapper built by [nextFns] passes a returned result on and puts its
    own entry in front. *)
Lemma nextFn_yields (G G' : StepResult -> list event -> Prop) p opts fn index next :
  (forall args w, exists r suf,
      fst (fn args next w) = Return r /\
      trace (snd (fn args next w)) = trace w ++ suf /\ G r suf) ->
  (forall r suf, G r suf -> G' r (Invoke index :: suf)) ->
  yields G' (nextFn p opts fn index next).
Proof.
  intros Hfn HG o w. unfold nextFn, bind, emit, wrapCallSafe.
  set (args := MwArgs _ _ _ _ _). set (w0 := World _ _).
  destruct (Hfn args w0) as (r & suf & Hr & Ht & Hg).
  destruct (fn args next w0) as [[r'|e] w1]; simpl in *; [|discriminate].
  injection Hr as ->. exists r, (Invoke index :: suf). split; [reflexivity|].
  split; [|auto]. rewrite Ht. subst w0. simpl. rewrite <- app_assoc. reflexivity.
Qed.

(** Forwarding middlewares in front of the resolver step change nothing but
    the log entries in front. *)
Lemma chain_forwards (G : StepResult -> list event -> Prop) p opts mws :
  Forall (fun fn => forall args, forwards (fn args)) mws ->
  (forall index, yields G (nextFn p opts (resolver_step p opts) index None)) ->
  (forall r suf j, G r suf -> G r (Invoke j :: suf)) ->
  forall index, exists nf, head (chain p opts mws index) = Some nf /\ yields G nf.
Proof.
  intros Hmws Hlast HG. induction Hmws as [|fn mws Hfn _ IH]; intros index.
  - rewrite chain_nil. eauto.
  - rewrite chain_cons. destruct (IH (S index)) as (nf & -> & Hnf).
    eexists; split; [reflexivity|].
    apply nextFn_yields with (G := G); [|auto].
    intros args w. apply run_forwards; auto.
Qed.

(** *** What a call writes to the log *)

Lemma logs_run_once Q nf body :
  calls_next_once body -> (forall nextOpts, logs Q (nf nextOpts)) ->
  logs Q (run_middleware (Some nf) body).
Proof.
  intros Hb Hnf. induction Hb as [o k Hk|k _ IH|s k _ IH]; intros w; simpl.
  - destruct (Hnf o w) as (suf & Ht & HQ). exists suf. split; [|exact HQ].
    unfold bind. destruct (nf o w) as [[r|e] w1]; simpl in *; [|exact Ht].
    rewrite (run_no_next _ _ (Hk r)). exact Ht.
  - apply IH.
  - apply (IH (World s (trace w))).
Qed.

(** Any body at all: it can only add what its [next] adds, any number of
    times. *)
Lemma logs_run_any (Q : list event -> Prop) next body :
  Q [] -> (forall l1 l2, Q l1 -> Q l2 -> Q (l1 ++ l2)) ->
  (forall nf, next = Some nf -> forall nextOpts, logs Q (nf nextOpts)) ->
  logs Q (run_middleware next body).
Proof.
  intros Hnil Happ Hnext.
  induction body as [r|e|o k IH|k IH|s k IH]; intros w; simpl.
  - exists []. rewrite app_nil_r. auto.
  - exists []. rewrite app_nil_r. auto.
  - destruct next as [nf|]; [|exists []; rewrite app_nil_r; auto].
    destruct (Hnext nf eq_refl o w) as (suf & Ht & HQ). unfold bind.
    destruct (nf o w) as [[r|e] w1]; simpl in *; [|eauto].
    destruct (IH r w1) as (suf' & Ht' & HQ').
    exists (suf ++ suf'). rewrite Ht', Ht, app_assoc. auto.
  - apply IH.
  - apply (IH (World s (trace w))).
Qed.

Lemma logs_nextFn Q p opts fn index next :
  (forall args, logs Q (fn args next)) ->
  forall nextOpts,
    logs (fun suf => exists suf', suf = Invoke index :: suf' /\ Q suf')
         (nextFn p opts fn index next nextOpts).
Proof.
  intros Hfn o w. unfold nextFn, bind, emit, wrapCallSafe.
  set (args := MwArgs _ _ _ _ _). set (w0 := World _ _).
  destruct (Hfn args w0) as (suf & Ht & HQ).
  exists (Invoke index :: suf). split; [|eauto].
  destruct (fn args next w0) as [[r|e] w1]; simpl in *;
    rewrite Ht; subst w0; simpl; rewrite <- app_assoc; reflexivity.
Qed.

(** The resolver step when the input parser rejects the raw input. *)
Lemma resolver_step_rejected p opts cause args next w :
  parseInputFn p (opts_rawInput opts) = Throw cause ->
  resolver_step p opts args next w
  = (Throw (TRPCError "BAD_REQUEST" None (Some cause)),
     World (store w) (trace w ++ [ParseInput])).
Proof.
  intros H. unfold resolver_step, parseInput, bind, emit. simpl. rewrite H.
  reflexivity.
Qed.

(** The resolver step when the input parser accepts: the resolver runs on the
    parsed input and the store of that moment. *)
Lemma resolver_step_accepted p opts input args next w :
  parseInputFn p (opts_rawInput opts) = Return input ->
  resolver_step p opts args next w
  = let w1 := World (store w) ((trace w ++ [ParseInput]) ++ [Resolve]) in
    match resolver p (ResArgs (mw_ctx args) input (opts_rawInput opts)
                        (opts_path opts) (opts_type opts)) (store w) with
    | (Return rawOutput, s) =>
        let w2 := World s (trace w1 ++ [ParseOutput]) in
        match parseOutputFn p rawOutput with
        | Return data => (Return (Some (MwOk data (mw_ctx args))), w2)
        | Throw cause =>
            (Throw (TRPCError "INTERNAL_SERVER_ERROR"
                      (Some "Output validation failed") (Some cause)), w2)
        end
    | (Throw e, s) => (Throw e, World s (trace w1))
    end.
Proof.
  intros H. unfold resolver_step, parseInput, parseOutput, bind, emit, liftS.
  simpl. rewrite H. simpl.
  destruct (resolver p _ (store w)) as [[rawOutput|e] s]; simpl; [|reflexivity].
  destruct (parseOutputFn p rawOutput); reflexivity.
Qed.

(** With a rejected input no step of the chain, however the middlewares
    behave, logs a call of the resolver. *)
Lemma chain_never_resolves p opts cause mws :
  parseInputFn p (opts_rawInput opts) = Throw cause ->
  forall index nf, head (chain p opts mws index) = Some nf ->
  forall nextOpts, logs (fun suf => Resolve ∉ suf) (nf nextOpts).
Proof.
  intros Hparse. induction mws as [|fn mws IH]; intros index nf Hnf o.
  - rewrite chain_nil in Hnf. injection Hnf as <-.
    intros w. destruct (logs_nextFn (fun suf => suf = [ParseInput]) p opts
                          (resolver_step p opts) index None) with (nextOpts := o) (w := w)
      as (suf & Ht & (suf' & -> & ->)).
    + intros args w'. rewrite (resolver_step_rejected _ _ cause) by assumption.
      simpl. eauto.
    + exists [Invoke index; ParseInput]. split; [exact Ht|].
      rewrite !not_elem_of_cons. repeat split; try discriminate. apply not_elem_of_nil.
  - rewrite chain_cons in Hnf. injection Hnf as <-.
    intros w. destruct (logs_nextFn (fun suf => Resolve ∉ suf) p opts
                          (middleware_step fn) index
                          (head (chain p opts mws (S index)))) with (nextOpts := o) (w := w)
      as (suf & Ht & (suf' & -> & HQ)).
    + intros args. unfold middleware_step. apply logs_run_any.
      * apply not_elem_of_nil.
      * intros l1 l2 H1 H2. rewrite not_elem_of_app. auto.
      * intros nf' Hnf' o'. exact (IH (S index) nf' Hnf' o').
    + exists (Invoke index :: suf'). split; [exact Ht|].
      rewrite not_elem_of_cons. split; [discriminate|exact HQ].
Qed.

(** When every middleware calls [next] once, the steps are entered in order
    and the resolver is called once, after all of them. *)
Lemma chain_straight_run p opts input mws :
  parseInputFn p (opts_rawInput opts) = Return input ->
  Forall (fun fn => forall args, calls_next_once (fn args)) mws ->
  forall index, exists nf,
    head (chain p opts mws index) = Some nf /\
    forall nextOpts, logs (straight_run index (length mws)) (nf nextOpts).
Proof.
  intros Hparse Hmws. induction Hmws as [|fn mws Hfn _ IH]; intros index.
  - rewrite chain_nil. eexists; split; [reflexivity|]. intros o w.
    destruct (logs_nextFn
                (fun suf => exists tl, suf = [ParseInput; Resolve] ++ tl
                                       /\ (tl = [] \/ tl = [ParseOutput]))
                p opts (resolver_step p opts) index None) with (nextOpts := o) (w := w)
      as (suf & Ht & (suf' & -> & (tl & -> & Htl))).
    + intros args w'. rewrite (resolver_step_accepted _ _ input) by assumption.
      simpl. destruct (resolver p _ (store w')) as [[rawOutput|e] s].
      * exists [ParseInput; Resolve; ParseOutput]. split.
        { destruct (parseOutputFn p rawOutput); simpl; rewrite <- !app_assoc; reflexivity. }
        exists [ParseOutput]. auto.
      * exists [ParseInput; Resolve]. simpl. split.
        { rewrite <- !app_assoc. reflexivity. }
        exists []. auto.
    + eexists. split; [exact Ht|]. exists tl. simpl. rewrite Nat.add_0_r. auto.
  - rewrite chain_cons. destruct (IH (S index)) as (nf' & -> & Hnf').
    eexists; split; [reflexivity|]. intros o w.
    destruct (logs_nextFn (straight_run (S index) (length mws)) p opts
                (middleware_step fn) index (Some nf')) with (nextOpts := o) (w := w)
      as (suf & Ht & (suf' & -> & (tl & -> & Htl))).
    + intros args. unfold middleware_step. apply logs_run_once; auto.
    + eexists. split; [exact Ht|]. exists tl. split; [|exact Htl]. simpl.
      rewrite Nat.add_succ_r. reflexivity.
Qed.

Lemma chain_head p opts mws index :
  exists nf, head (chain p opts mws index) = Some nf.
Proof. destruct mws; [rewrite chain_nil|rewrite chain_cons]; eauto. Qed.

(** [call] is the first [next] function followed by the three-way test on
    its result. *)
Lemma call_head p opts nf w :
  head (chain p opts (middlewares p) 0) = Some nf ->
  call p opts w
  = match nf None w with
    | (Return None, w') =>
        (Throw (TRPCError "INTERNAL_SERVER_ERROR"
                  (Some "No result from middlewares - did you forget to `return next()`?")
                  None), w')
    | (Return (Some (MwError error)), w') => (Throw error, w')
    | (Return (Some (MwOk data _)), w') => (Return data, w')
    | (Throw e, w') => (Throw e, w')
    end.
Proof.
  unfold call, chain, middlewaresWithResolver. intros ->. unfold bind.
  destruct (nf None w) as [[[[data ctx|error]|]|e] w']; reflexivity.
Qed.

Lemma call_trace p opts nf w :
  head (chain p opts (middlewares p) 0) = Some nf ->
  trace (snd (call p opts w)) = trace (snd (nf None w)).
Proof.
  intros H. rewrite (call_head _ _ _ _ H).
  destruct (nf None w) as [[[[data ctx|error]|]|e] w']; reflexivity.
Qed.


(** What [call] returns or throws, from the result of the first [next]
    function. *)
Lemma call_fst p opts nf w :
  head (chain p opts (middlewares p) 0) = Some nf ->
  fst (call p opts w)
  = match fst (nf None w) with
    | Return None =>
        Throw (TRPCError "INTERNAL_SERVER_ERROR"
                 (Some "No result from middlewares - did you forget to `return next()`?")
                 None)
    | Return (Some (MwError error)) => Throw error
    | Return (Some (MwOk data _)) => Return data
    | Throw e => Throw e
    end.
Proof.
  intros H. rewrite (call_head _ _ _ _ H).
  destruct (nf None w) as [[[[data ctx|error]|]|e] w']; reflexivity.
Qed.

Lemma call_store p opts nf w :
  head (chain p opts (middlewares p) 0) = Some nf ->
  store (snd (call p opts w)) = store (snd (nf None w)).
Proof.
  intros H. rewrite (call_head _ _ _ _ H).
  destruct (nf None w) as [[[[data ctx|error]|]|e] w']; reflexivity.
Qed.

(** The outcome of [call] on a procedure without middlewares, in terms of
    its resolver step. *)
Lemma call_without_middlewares p opts w :
  middlewares p = [] ->
  call p opts w
  = match resolver_step p opts
            (MwArgs (opts_ctx opts) (opts_type opts) (opts_path opts)
               (opts_rawInput opts) (meta p))
            None (World (store w) (trace w ++ [Invoke 0])) with
    | (Return None, w') =>
        (Throw (TRPCError "INTERNAL_SERVER_ERROR"
                  (Some "No result from middlewares - did you forget to `return next()`?")
                  None), w')
    | (Return (Some (MwError error)), w') => (Throw error, w')
    | (Return (Some (MwOk data _)), w') => (Return data, w')
    | (Throw e, w') => (Throw (getErrorFromUnknown e), w')
    end.
Proof.
  intros Hmws.
  rewrite (call_head p opts (nextFn p opts (resolver_step p opts) 0 None) w)
    by (rewrite Hmws; apply chain_nil).
  unfold nextFn, bind, emit, wrapCallSafe. simpl.
  destruct (resolver_step p opts _ None _) as [[[[data ctx|error]|]|e] w'];
    reflexivity.
Qed.

(** *** The context and the store the resolver is given *)

(** A [next] function in terms of the step behind it. *)
Lemma nextFn_eq p opts fn index next nextOpts w :
  nextFn p opts fn index next nextOpts w
  = match fn (MwArgs (match nextOpts with Some ctx => ctx | None => opts_ctx opts end)
                (opts_type opts) (opts_path opts) (opts_rawInput opts) (meta p))
             next (World (store w) (trace w ++ [Invoke index])) with
    | (Return r, w') => (Return r, w')
    | (Throw e, w') => (Return (Some (MwError (getErrorFromUnknown e))), w')
    end.
Proof.
  unfold nextFn, bind, emit, wrapCallSafe.
  match goal with |- context [fn ?a ?n ?w0] => destruct (fn a n w0) as [[r|e] w'] end;
    reflexivity.
Qed.

Lemma nextFn_returns p opts fn index next nextOpts w :
  exists r, fst (nextFn p opts fn index next nextOpts w) = Return r.
Proof.
  rewrite nextFn_eq.
  match goal with |- context [fn ?a ?n ?w0] => destruct (fn a n w0) as [[r|e] w'] end;
    simpl; eauto.
Qed.

(** A forwarding body, run against a [next] that returns: it calls [next]
    where [until_next] says, and ends as that call ended. *)
Lemma run_forwards_at nf body :
  forwards body ->
  forall w, exists nextOpts s,
    until_next body (store w) = Some (nextOpts, s)
    /\ forall r,
         fst (nf nextOpts (World s (trace w))) = Return r ->
         fst (run_middleware (Some nf) body w) = Return r
         /\ trace (snd (run_middleware (Some nf) body w))
            = trace (snd (nf nextOpts (World s (trace w)))).
Proof.
  induction 1 as [o k Hk|k _ IH|s k _ IH]; intros w; simpl.
  - exists o, (store w). split; [reflexivity|]. intros r Hr. unfold bind.
    replace (World (store w) (trace w)) with w in Hr |- * by (destruct w; reflexivity).
    destruct (nf o w) as [[r'|e] w1]; simpl in *; [|discriminate].
    injection Hr as ->. exact (run_returns (Some nf) r (k r) (Hk r) w1).
  - apply IH.
  - apply (IH (World s (trace w))).
Qed.

(** Forwarding middlewares in front of the resolver step: a [next] function
    of the chain ends as the resolver step does, entered with the context
    and the store that [reaches] computes, after the steps on the way were
    entered in order. *)
Lemma chain_reaches p opts mws :
  Forall (fun fn : MiddlewareFunction => forall args, forwards (fn args)) mws ->
  forall index nextOpts w, exists nf ctx s,
    head (chain p opts mws index) = Some nf
    /\ reaches p opts mws nextOpts (store w) = Some (ctx, s)
    /\ let last :=
         nextFn p opts (resolver_step p opts) (index + length mws) None (Some ctx)
           (World s (trace w ++ map Invoke (seq index (length mws)))) in
       fst (nf nextOpts w) = fst last
       /\ trace (snd (nf nextOpts w)) = trace (snd last).
Proof.
  induction 1 as [|fn mws Hfn _ IH]; intros index o w.
  - rewrite chain_nil. eexists _, _, _. split; [reflexivity|].
    split; [reflexivity|]. simpl. rewrite Nat.add_0_r, app_nil_r.
    rewrite !nextFn_eq. simpl. split; reflexivity.
  - rewrite chain_cons.
    destruct (chain_head p opts mws (S index)) as [nf' Hnf']. rewrite Hnf'.
    set (args := MwArgs (match o with Some ctx => ctx | None => opts_ctx opts end)
                   (opts_type opts) (opts_path opts) (opts_rawInput opts) (meta p)).
    set (w0 := World (store w) (trace w ++ [Invoke index])).
    destruct (run_forwards_at nf' (fn args) (Hfn args) w0) as (o1 & s1 & Hun & Hrun).
    destruct (IH (S index) o1 (World s1 (trace w0))) as (nf'' & ctx & s & Hh & Hre & Hf & Ht).
    rewrite Hnf' in Hh. injection Hh as <-.
    eexists _, ctx, s. split; [reflexivity|]. split.
    + simpl. fold args. simpl in Hun. rewrite Hun. exact Hre.
    + cbv zeta in Hf, Ht |- *. simpl length.
      replace (index + S (length mws)) with (S index + length mws) by lia.
      replace (trace w ++ map Invoke (seq index (S (length mws))))
        with (trace w0 ++ map Invoke (seq (S index) (length mws)))
        by (simpl; rewrite <- app_assoc; reflexivity).
      destruct (nextFn_returns p opts (resolver_step p opts) (S index + length mws) None
                  (Some ctx)
                  (World s (trace w0 ++ map Invoke (seq (S index) (length mws)))))
        as [r Hr].
      change (trace (World s1 (trace w0))) with (trace w0) in Hf, Ht.
      rewrite Hr in Hf.
      destruct (Hrun r Hf) as [H1 H2].
      rewrite nextFn_eq. fold args w0. unfold middleware_step.
      destruct (run_middleware (Some nf') (fn args) w0) as [[r'|e] w1]; simpl in *;
        [|discriminate].
      rewrite Hr, H1, H2, Ht. split; reflexivity.
Qed.

(** [call] with forwarding middlewares, by what the resolver and the output
    parser do on the context and the store that the chain hands to the
    resolver step. *)
Lemma call_reaches p opts input w :
  parseInputFn p (opts_rawInput opts) = Return input ->
  Forall (fun fn => forall args, forwards (fn args)) (middlewares p) ->
  exists ctx s,
    reaches p opts (middlewares p) None (store w) = Some (ctx, s)
    /\ let n := length (middlewares p) in
       let entered :=
         trace w ++ map Invoke (seq 0 n) ++ [Invoke n; ParseInput; Resolve] in
       match resolver p (ResArgs ctx input (opts_rawInput opts) (opts_path opts)
                           (opts_type opts)) s with
       | (Return rawOutput, _) =>
           trace (snd (call p opts w)) = entered ++ [ParseOutput]
           /\ fst (call p opts w)
              = match parseOutputFn p rawOutput with
                | Return data => Return data
                | Throw cause =>
                    Throw (TRPCError "INTERNAL_SERVER_ERROR"
                             (Some "Output validation failed") (Some cause))
                end
       | (Throw e, _) =>
           trace (snd (call p opts w)) = entered
           /\ fst (call p opts w) = Throw (getErrorFromUnknown e)
       end.
Proof.
  intros Hparse Hmws.
  destruct (chain_reaches p opts (middlewares p) Hmws 0 None w)
    as (nf & ctx & s & Hnf & Hre & Hf & Ht).
  exists ctx, s. split; [exact Hre|]. cbv zeta.
  rewrite (call_trace _ _ _ _ Hnf), (call_fst _ _ _ _ Hnf), Hf, Ht.
  rewrite nextFn_eq, (resolver_step_accepted _ _ input) by assumption. simpl.
  destruct (resolver p _ s) as [[rawOutput|e] s'].
  - destruct (parseOutputFn p rawOutput) as [data|cause]; simpl;
      rewrite <- !app_assoc; simpl; auto.
  - simpl. rewrite <- !app_assoc. simpl. auto.
Qed.


(** *** Further properties of [call] *)



(** *** The store of a call *)

Lemma nextFn_store p opts fn index next nextOpts w :
  store (snd (nextFn p opts fn index next nextOpts w))
  = store (snd (fn (MwArgs (match nextOpts with Some ctx => ctx | None => opts_ctx opts end)
                      (opts_type opts) (opts_path opts) (opts_rawInput opts) (meta p))
                   next (World (store w) (trace w ++ [Invoke index])))).
Proof.
  rewrite nextFn_eq.
  match goal with |- context [fn ?a ?n ?w0] => destruct (fn a n w0) as [[r|e] w'] end;
    reflexivity.
Qed.

(** A body that neither calls [next] nor writes the store leaves it as it
    is. *)
Lemma run_keeps_store next body :
  no_next body -> keeps_store body ->
  forall w, store (snd (run_middleware next body w)) = store w.
Proof.
  induction 1 as [r|e|k _ IH|s k _ IH]; intros Hk w; simpl; auto.
  - inversion Hk as [| | |k' Hk']; subst. apply IH, Hk'.
  - inversion Hk.
Qed.

(** A body that calls [next] once and does not write the store changes the
    store as its [next] does. *)
Lemma run_once_store (f : Store -> Store) nf body :
  calls_next_once body -> keeps_store body ->
  (forall nextOpts w, store (snd (nf nextOpts w)) = f (store w)) ->
  forall w, store (snd (run_middleware (Some nf) body w)) = f (store w).
Proof.
  intros Hb Hk Hnf. induction Hb as [o k Hno|k _ IH|s k _ IH]; intros w; simpl.
  - specialize (Hnf o w). unfold bind.
    destruct (nf o w) as [[r|e] w1]; simpl in *; [|exact Hnf].
    inversion Hk as [| |o' k' Hk'|]; subst.
    rewrite (run_keeps_store _ _ (Hno r) (Hk' r)). exact Hnf.
  - inversion Hk as [| | |k' Hk']; subst. apply IH, Hk'.
  - inversion Hk.
Qed.

End Properties.

(** *** Middlewares that sign in *)

Section Register.

Context {Ctx Meta RawInput Input Output FinalOutput Value Label : Type}.

Implicit Types
  (p : Procedure Ctx Meta RawInput Input Output FinalOutput Value (list Label))
  (opts : ProcedureCallOptions Ctx RawInput)
  (labelled :
     list (Label * MiddlewareFunction Ctx Meta RawInput FinalOutput Value (list Label)))
  (w : world (list Label)).

Lemma announcing_calls_next_once labelled :
  Forall (fun lf => forall args,
            calls_next_once (snd lf args) /\ keeps_store (snd lf args)) labelled ->
  Forall (fun fn => forall args, calls_next_once (fn args))
    (map (fun lf => announcing (fst lf) (snd lf)) labelled).
Proof.
  induction 1 as [|lf labelled Hlf _ IH]; simpl; constructor; [|exact IH].
  intros args. unfold announcing. apply once_get. intros s. apply once_put.
  apply Hlf.
Qed.

(** Each middleware signs in when it is entered, the resolver when it is
    called: a [next] function of the chain adds the labels of the steps
    behind it, in their order. *)
Lemma chain_register p opts input labelled label :
  parseInputFn p (opts_rawInput opts) = Return input ->
  Forall (fun lf => forall args,
            calls_next_once (snd lf args) /\ keeps_store (snd lf args)) labelled ->
  (forall args register, snd (resolver p args register) = register ++ [label]) ->
  forall index, exists nf,
    head (chain p opts (map (fun lf => announcing (fst lf) (snd lf)) labelled) index)
    = Some nf
    /\ forall nextOpts w,
         store (snd (nf nextOpts w)) = store w ++ map fst labelled ++ [label].
Proof.
  intros Hparse Hmws Hres. induction Hmws as [|lf labelled Hlf _ IH]; intros index.
  - simpl map. rewrite chain_nil. eexists; split; [reflexivity|]. intros o w.
    rewrite nextFn_eq, (resolver_step_accepted _ _ input) by assumption. simpl.
    match goal with |- context [resolver p ?a ?s] =>
      specialize (Hres a s); destruct (resolver p a s) as [[rawOutput|e] s'] end;
      simpl in Hres; subst s'; [|reflexivity].
    destruct (parseOutputFn p rawOutput); reflexivity.
  - simpl map. rewrite chain_cons. destruct (IH (S index)) as (nf' & -> & Hnf').
    eexists; split; [reflexivity|]. intros o w. rewrite nextFn_store.
    unfold middleware_step, announcing. simpl run_middleware.
    rewrite (run_once_store (fun register => register ++ map fst labelled ++ [label]) nf');
      [|apply Hlf|apply Hlf|exact Hnf'].
    simpl. rewrite <- app_assoc. reflexivity.
Qed.


End Register.







(** *** [createProcedure] *)

Section CreateProcedureProps.

Context {Ctx Meta Output Store : Type}.

Implicit Types (opts : CreateProcedureOptions Ctx Meta Output Store)
  (p : Procedure Ctx Meta value value Output Output value Store)
  (w : world Store).

(** What [createProcedure] builds when [input] is missing. *)
Lemma createProcedure_no_input opts p :
  create_input opts = None -> createProcedure opts = Return p ->
  middlewares p = [] /\ parseInputFn p = no_input_expected
  /\ resolver p = create_resolve opts.
Proof.
  unfold createProcedure, new_Procedure. intros ->. simpl.
  destruct (getParseFn _) as [out|e]; [|discriminate].
  intros [= <-]. auto.
Qed.

(** X4: a procedure declared without [input] takes no input.  On a raw input
    other than [null] and [undefined] its [call] throws [BAD_REQUEST], whose
    cause is the parser's own [BAD_REQUEST] 'No input expected'; the resolver
    is not called and the store is not touched. *)
Theorem createProcedure_rejects_input opts p ctx rawInput path type w :
  create_input opts = None -> createProcedure opts = Return p ->
  not_nullish rawInput = true ->
  call p (CallOptions ctx rawInput path type) w
  = (Throw (TRPCError "BAD_REQUEST" None
              (Some (TRPCError "BAD_REQUEST" (Some "No input expected") None))),
     World (store w) (trace w ++ [Invoke 0; ParseInput])).
Proof.
  intros Hin Hp Hraw.
  destruct (createProcedure_no_input opts p Hin Hp) as (Hmws & Hparse & _).
  rewrite (call_without_middlewares _ _ _ Hmws).
  rewrite (resolver_step_rejected _ _
             (TRPCError "BAD_REQUEST" (Some "No input expected") None)).
  - simpl. rewrite <- app_assoc. reflexivity.
  - rewrite Hparse. unfold no_input_expected. simpl. rewrite Hraw. reflexivity.
Qed.

(** X5: a procedure declared with a resolver only.  [createProcedure] does
    not fail; on a raw input that is [null] or [undefined] its [call] runs
    the resolver with [undefined] as input and returns the resolver's output
    as it is, or throws the resolver's error, normalised. *)
Theorem createProcedure_resolver_only opts ctx rawInput path type w :
  create_input opts = None -> create_output opts = None ->
  not_nullish rawInput = false ->
  exists p,
    createProcedure opts = Return p
    /\ call p (CallOptions ctx rawInput path type) w
       = match create_resolve opts (ResArgs ctx VUndefined rawInput path type)
                 (store w) with
         | (Return output, s) =>
             (Return output,
              World s (trace w ++ [Invoke 0; ParseInput; Resolve; ParseOutput]))
         | (Throw e, s) =>
             (Throw (getErrorFromUnknown e),
              World s (trace w ++ [Invoke 0; ParseInput; Resolve]))
         end.
Proof.
  intros Hin Hout Hraw. unfold createProcedure, new_Procedure.
  rewrite Hin, Hout. simpl. eexists. split; [reflexivity|].
  rewrite call_without_middlewares by reflexivity.
  rewrite (resolver_step_accepted _ _ VUndefined)
    by (simpl; unfold no_input_expected; rewrite Hraw; reflexivity).
  simpl.
  destruct (create_resolve opts _ (store w)) as [[output|e] s]; simpl;
    rewrite <- !app_assoc; reflexivity.
Qed.

End CreateProcedureProps.



Lemma createProcedure_rejects_input_witness :
  exists p,
    createProcedure bare = Return p
    /\ call p (CallOptions "anonymous" (VStr "unexpected") "ping" "query") fresh
       = (Throw (TRPCError "BAD_REQUEST" None
                   (Some (TRPCError "BAD_REQUEST" (Some "No input expected") None))),
          World 0 [Invoke 0; ParseInput]).
Proof.
  eexists. split; [reflexivity|].
  apply (createProcedure_rejects_input bare _ "anonymous" (VStr "unexpected")
           "ping" "query" fresh eq_refl eq_refl eq_refl).
Defined.

Lemma createProcedure_resolver_only_witness :
  exists p,
    createProcedure bare = Return p
    /\ call p (CallOptions "anonymous" VNull "ping" "query") fresh
       = (Return VUndefined,
          World 1 [Invoke 0; ParseInput; Resolve; ParseOutput]).
Proof.
  apply (createProcedure_resolver_only bare "anonymous" VNull "ping" "query" fresh
           eq_refl eq_refl eq_refl).
Defined.

End ProcedureProps.

(** ** Observable *)

Module ObservableProps.
Import Observable.

Section Properties.

Context {TValue TError : Type}.

Abbreviation state := (state TValue TError).
Abbreviation call := (call TValue TError).
Abbreviation event := (event TValue TError).
Abbreviation pending := (@pending TValue TError).

Implicit Types (observer : Observer) (st : state) (c : call)
  (cs producer teardown during later : list call) (l : list event).

(** Induction on calls, through the lists of calls they carry. *)
Lemma call_nested_ind (P : call -> Prop)
    (HNext : forall value during, Forall P during -> P (Next value during))
    (HError : forall err during teardown,
        Forall P during -> Forall P teardown -> P (Error err during teardown))
    (HComplete : forall during teardown,
        Forall P during -> Forall P teardown -> P (Complete during teardown))
    (HUnsubscribe : forall teardown, Forall P teardown -> P (Unsubscribe teardown))
    : forall c, P c.
Proof.
  exact (fix go (c : call) : P c :=
    let all := fix all (cs : list call) : Forall P cs :=
      match cs with
      | [] => @List.Forall_nil _ P
      | c :: cs => @List.Forall_cons _ P c cs (go c) (all cs)
      end in
    match c with
    | Next value during => HNext value during (all during)
    | Error err during teardown => HError err during teardown (all during) (all teardown)
    | Complete during teardown => HComplete during teardown (all during) (all teardown)
    | Unsubscribe teardown => HUnsubscribe teardown (all teardown)
    end).
Qed.

Lemma exec_eq observer c st :
  exec observer c st =
  match c with
  | Next value during =>
      if isDone st then st
      else if has_next observer
           then exec_all observer during (record (OnNext value) st)
           else st
  | Error err during teardown =>
      if isDone st then st
      else
        let st := set_isDone st in
        let st := if has_error observer
                  then exec_all observer during (record (OnError err) st)
                  else st in
        unsubscribe (exec_all observer teardown) st
  | Complete during teardown =>
      if isDone st then st
      else
        let st := set_isDone st in
        let st := if has_complete observer
                  then exec_all observer during (record OnComplete st)
                  else st in
        unsubscribe (exec_all observer teardown) st
  | Unsubscribe teardown => unsubscribe (exec_all observer teardown) st
  end.
Proof.
  assert (Hrun : forall cs st',
             (fix run (cs : list call) (st : state) {struct cs} : state :=
                match cs with
                | [] => st
                | c :: cs => run cs (exec observer c st)
                end) cs st' = exec_all observer cs st').
  { induction cs as [|c' cs IH]; intros st'; simpl; auto. }
  destruct c; simpl; unfold unsubscribe; rewrite ?Hrun; reflexivity.
Qed.

(** *** Every call is a sequence of atomic updates *)

Lemma unsubscribe_steps observer run_teardown st :
  (forall st', rtc (step observer) st' (run_teardown st')) ->
  rtc (step observer) st (unsubscribe run_teardown st).
Proof.
  intros Hrun. unfold unsubscribe.
  destruct (teardownRef st) as [t|] eqn:Ht.
  - destruct (unsubscribed st) eqn:Hu; [apply rtc_refl|].
    destruct t.
    + apply rtc_once. apply step_no_teardown; assumption.
    + eapply rtc_l; [|apply Hrun]. apply (step_teardown _ TeardownFunction); auto.
    + eapply rtc_l; [|apply Hrun]. apply (step_teardown _ TeardownUnsubscribable); auto.
  - apply rtc_once. apply step_defer. assumption.
Qed.

Lemma exec_all_steps_of observer cs :
  Forall (fun c => forall st, rtc (step observer) st (exec observer c st)) cs ->
  forall st, rtc (step observer) st (exec_all observer cs st).
Proof.
  induction 1 as [|c cs Hc _ IH]; intros st; simpl; [apply rtc_refl|].
  eapply rtc_trans; [apply Hc|apply IH].
Qed.

Lemma exec_steps observer c st : rtc (step observer) st (exec observer c st).
Proof.
  revert st. induction c as [v d Hd|e d t Hd Ht|d t Hd Ht|t Ht] using call_nested_ind;
    intros st; rewrite exec_eq; cbv zeta.
  - destruct (isDone st) eqn:Hdone; [apply rtc_refl|].
    destruct (has_next observer) eqn:Hn; [|apply rtc_refl].
    eapply rtc_l; [apply step_next; assumption|]. apply exec_all_steps_of, Hd.
  - destruct (isDone st) eqn:Hdone; [apply rtc_refl|].
    eapply rtc_trans; [|apply unsubscribe_steps, exec_all_steps_of, Ht].
    destruct (has_error observer) eqn:Hn.
    + eapply rtc_l; [apply (step_error _ e); assumption|]. apply exec_all_steps_of, Hd.
    + apply rtc_once, step_done. assumption.
  - destruct (isDone st) eqn:Hdone; [apply rtc_refl|].
    eapply rtc_trans; [|apply unsubscribe_steps, exec_all_steps_of, Ht].
    destruct (has_complete observer) eqn:Hn.
    + eapply rtc_l; [apply step_complete; assumption|]. apply exec_all_steps_of, Hd.
    + apply rtc_once, step_done. assumption.
  - apply unsubscribe_steps, exec_all_steps_of, Ht.
Qed.

Lemma exec_all_steps observer cs st :
  rtc (step observer) st (exec_all observer cs st).
Proof.
  apply exec_all_steps_of. apply Forall_forall. intros c _ st'. apply exec_steps.
Qed.

Lemma steps_preserve observer (I : state -> Prop) :
  (forall st st', step observer st st' -> I st -> I st') ->
  forall st st', rtc (step observer) st st' -> I st -> I st'.
Proof. intros HI st st' H. induction H; eauto. Qed.

(** *** What the atomic updates preserve *)

Lemma step_teardownRef observer st st' :
  step observer st st' -> teardownRef st' = teardownRef st.
Proof. destruct 1; reflexivity. Qed.

Lemma step_unsubscribed observer st st' :
  step observer st st' -> unsubscribed st = true -> unsubscribed st' = true.
Proof. destruct 1; simpl; auto. Qed.

Lemma teardowns_app l1 l2 : teardowns (l1 ++ l2) = teardowns l1 + teardowns l2.
Proof. unfold teardowns. rewrite List.filter_app, length_app. reflexivity. Qed.

Lemma callbacks_app l1 l2 : callbacks (l1 ++ l2) = callbacks l1 ++ callbacks l2.
Proof. apply List.filter_app. Qed.

Lemma step_consistent observer st st' :
  step observer st st' -> consistent st -> consistent st'.
Proof.
  unfold consistent.
  destruct 1 as [v st Hd Hn|e st Hd Hn|st Hd Hn|st Hd|st Ht|t st Ht Hu Hh|st Ht Hu];
    simpl; try rewrite teardowns_app; simpl;
    try (destruct (teardownRef st); rewrite ?Nat.add_0_r; tauto).
  - rewrite Ht, Hu, Hh. simpl. change (teardowns [TornDown]) with 1. lia.
  - rewrite Ht, Hu. simpl. auto.
Qed.

(** Once [isDone] is set it stays set, and no callback is called. *)
Lemma step_latched observer st st' :
  step observer st st' -> isDone st = true ->
  isDone st' = true /\ callbacks (log st') = callbacks (log st).
Proof.
  destruct 1; simpl; intros Hdone; try congruence; auto.
  rewrite callbacks_app, app_nil_r. auto.
Qed.

Lemma steps_latched observer st st' :
  rtc (step observer) st st' -> isDone st = true ->
  isDone st' = true /\ callbacks (log st') = callbacks (log st).
Proof.
  induction 1 as [|st1 st2 st3 H12 _ IH]; [auto|]. intros Hdone.
  destruct (step_latched _ _ _ H12 Hdone) as [Hd2 Hc2].
  destruct (IH Hd2) as [Hd3 Hc3]. split; congruence.
Qed.

(** The log only grows. *)
Lemma steps_log observer st st' :
  rtc (step observer) st st' -> exists suf, log st' = log st ++ suf.
Proof.
  induction 1 as [st|st1 st2 st3 H12 _ [suf IH]].
  - exists []. rewrite app_nil_r. reflexivity.
  - destruct H12; simpl in IH; rewrite IH, <- ?app_assoc; eauto.
Qed.

Lemma pending_consistent : consistent pending.
Proof. split; reflexivity. Qed.

Lemma exec_all_teardownRef observer cs st :
  teardownRef (exec_all observer cs st) = teardownRef st.
Proof.
  apply (steps_preserve observer (fun st' => teardownRef st' = teardownRef st)
           ltac:(intros st1 st2 H <-; eapply step_teardownRef, H)
           st _ (exec_all_steps observer cs st) eq_refl).
Qed.

Lemma exec_all_consistent observer cs st :
  consistent st -> consistent (exec_all observer cs st).
Proof.
  apply (steps_preserve observer consistent (step_consistent observer)),
    exec_all_steps.
Qed.

Lemma exec_all_unsubscribed observer cs st :
  unsubscribed st = true -> unsubscribed (exec_all observer cs st) = true.
Proof.
  apply (steps_preserve observer (fun st => unsubscribed st = true)
           (step_unsubscribed observer)), exec_all_steps.
Qed.

(** With a teardown stored, [unsubscribe] leaves [unsubscribed] set. *)
Lemma unsubscribe_unsubscribed observer teardown t st :
  teardownRef st = Some t ->
  unsubscribed (unsubscribe (exec_all observer teardown) st) = true.
Proof.
  intros Ht. unfold unsubscribe. rewrite Ht.
  destruct (unsubscribed st) eqn:Hu; [assumption|].
  destruct t; try apply exec_all_unsubscribed; reflexivity.
Qed.

Lemma subscribe_teardownRef observer producer t teardown :
  teardownRef (subscribe observer producer t teardown) = Some t.
Proof.
  unfold subscribe. cbv zeta. set (st := set_teardownRef t _).
  destruct (teardownImmediately st); [|reflexivity].
  apply (steps_preserve observer (fun st' => teardownRef st' = Some t)
           ltac:(intros st1 st2 H <-; eapply step_teardownRef, H) st).
  - apply unsubscribe_steps. intros st'. apply exec_all_steps.
  - reflexivity.
Qed.

Lemma subscribe_consistent observer producer t teardown :
  consistent (subscribe observer producer t teardown).
Proof.
  unfold subscribe. cbv zeta.
  pose proof (exec_all_consistent observer producer pending pending_consistent) as Hc.
  pose proof (exec_all_teardownRef observer producer pending) as Hr.
  set (st := exec_all observer producer pending) in *.
  assert (Hc' : consistent (set_teardownRef t st)).
  { unfold consistent in *. simpl in *. rewrite Hr in Hc. destruct Hc as [-> ->].
    reflexivity. }
  destruct (teardownImmediately (set_teardownRef t st)); [|exact Hc'].
  apply (steps_preserve observer consistent (step_consistent observer)
           (set_teardownRef t st)); [|exact Hc'].
  apply unsubscribe_steps. intros st'. apply exec_all_steps.
Qed.

(** The number of teardown runs in any state a subscription reaches. *)
Lemma teardowns_after observer producer t teardown later :
  let st := exec_all observer later (subscribe observer producer t teardown) in
  teardowns (log st) = if unsubscribed st && has_teardown t then 1 else 0.
Proof.
  intros st.
  pose proof (exec_all_consistent observer later _
                (subscribe_consistent observer producer t teardown)) as Hc.
  unfold consistent in Hc. fold st in Hc.
  unfold st in Hc at 1. rewrite exec_all_teardownRef, subscribe_teardownRef in Hc.
  exact Hc.
Qed.

(** After [isDone] has been set by [error] or [complete], only the rest of
    that function runs: the callback's own calls and [unsubscribe]. *)
Lemma finish_latched observer during teardown st0 st :
  isDone st0 = true ->
  st = unsubscribe (exec_all observer teardown) (exec_all observer during st0) ->
  isDone st = true /\ callbacks (log st) = callbacks (log st0).
Proof.
  intros Hdone ->. apply (steps_latched observer); [|assumption].
  eapply rtc_trans; [apply exec_all_steps|].
  apply unsubscribe_steps. intros st'. apply exec_all_steps.
Qed.

Lemma exec_all_latched observer cs st :
  isDone st = true ->
  isDone (exec_all observer cs st) = true
  /\ callbacks (log (exec_all observer cs st)) = callbacks (log st).
Proof. apply (steps_latched observer), exec_all_steps. Qed.

(** C4: when the producer calls [error] or [complete], the matching callback
    of the downstream observer is called if the subscription was not done
    yet (and is then the only callback called), [isDone] is set when the
    call returns, and no sequence of later calls of [next], [error],
    [complete] or [unsubscribe], nested calls included, calls any callback of
    the downstream observer again. *)
Theorem done_is_latched observer st err during teardown cs :
  (let st' := exec observer (Error err during teardown) st in
   isDone st' = true
   /\ callbacks (log st')
      = callbacks (log st)
          ++ (if isDone st then []
              else if has_error observer then [OnError err] else [])
   /\ callbacks (log (exec_all observer cs st')) = callbacks (log st'))
  /\
  (let st' := exec observer (Complete during teardown) st in
   isDone st' = true
   /\ callbacks (log st')
      = callbacks (log st)
          ++ (if isDone st then []
              else if has_complete observer then [OnComplete] else [])
   /\ callbacks (log (exec_all observer cs st')) = callbacks (log st')).
Proof.
  split; cbv zeta; rewrite exec_eq; cbv zeta.
  - destruct (isDone st) eqn:Hdone.
    + rewrite app_nil_r. split; [assumption|]. split; [reflexivity|].
      apply exec_all_latched, Hdone.
    + destruct (has_error observer).
      * destruct (finish_latched observer during teardown
                    (record (OnError err) (set_isDone st)) _ eq_refl eq_refl)
          as [Hd Hc].
        split; [exact Hd|]. split; [|apply exec_all_latched, Hd].
        rewrite Hc. simpl. apply callbacks_app.
      * destruct (finish_latched observer [] teardown (set_isDone st) _ eq_refl eq_refl)
          as [Hd Hc].
        change (exec_all observer [] (set_isDone st)) with (set_isDone st) in Hd, Hc.
        split; [exact Hd|]. split; [|apply exec_all_latched, Hd].
        rewrite Hc, app_nil_r. reflexivity.
  - destruct (isDone st) eqn:Hdone.
    + rewrite app_nil_r. split; [assumption|]. split; [reflexivity|].
      apply exec_all_latched, Hdone.
    + destruct (has_complete observer).
      * destruct (finish_latched observer during teardown
                    (record OnComplete (set_isDone st)) _ eq_refl eq_refl)
          as [Hd Hc].
        split; [exact Hd|]. split; [|apply exec_all_latched, Hd].
        rewrite Hc. simpl. apply callbacks_app.
      * destruct (finish_latched observer [] teardown (set_isDone st) _ eq_refl eq_refl)
          as [Hd Hc].
        change (exec_all observer [] (set_isDone st)) with (set_isDone st) in Hd, Hc.
        split; [exact Hd|]. split; [|apply exec_all_latched, Hd].
        rewrite Hc, app_nil_r. reflexivity.
Qed.

Lemma step_teardownImmediately observer st st' :
  step observer st st' ->
  teardownImmediately st = true -> teardownImmediately st' = true.
Proof. destruct 1; simpl; auto. Qed.

Lemma unsubscribe_deferred observer teardown cs st :
  teardownRef st = None ->
  teardownImmediately
    (exec_all observer cs (unsubscribe (exec_all observer teardown) st)) = true.
Proof.
  intros Hnull. unfold unsubscribe. rewrite Hnull.
  apply (steps_preserve observer (fun st => teardownImmediately st = true)
           (step_teardownImmediately observer) (set_teardownImmediately st)).
  - apply exec_all_steps.
  - reflexivity.
Qed.

(** Asking for the teardown before the producer has returned it sets
    [teardownImmediately] for good: by [unsubscribe] itself, or by [error] or
    [complete] on a subscription that is not done. *)
Lemma asked_while_pending observer st cs :
  teardownRef st = None ->
  (forall teardown,
      teardownImmediately (exec_all observer (Unsubscribe teardown :: cs) st) = true)
  /\ (isDone st = false ->
      (forall err during teardown,
          teardownImmediately
            (exec_all observer (Error err during teardown :: cs) st) = true)
      /\ (forall during teardown,
          teardownImmediately
            (exec_all observer (Complete during teardown :: cs) st) = true)).
Proof.
  intros Hnull. split; [|intros Hdone; split]; intros; cbn [exec_all];
    rewrite exec_eq; cbv zeta; rewrite ?Hdone; apply unsubscribe_deferred.
  - exact Hnull.
  - destruct (has_error observer); [rewrite exec_all_teardownRef|]; exact Hnull.
  - destruct (has_complete observer); [rewrite exec_all_teardownRef|]; exact Hnull.
Qed.

(** After one call of the returned [unsubscribe], whatever follows. *)
Lemma unsubscribed_after observer producer t teardown td later :
  unsubscribed
    (exec_all observer (Unsubscribe td :: later)
       (subscribe observer producer t teardown)) = true.
Proof.
  cbn [exec_all]. apply exec_all_unsubscribed. rewrite exec_eq.
  apply (unsubscribe_unsubscribed observer td t), subscribe_teardownRef.
Qed.

(** C5: on every subscription, whatever the producer and the consumer call,
    the teardown runs at most once.  When the producer returned a teardown
    (a function or an unsubscribable): two calls of [unsubscribe], with
    anything in between and after, run it exactly once; and if a teardown was
    asked for while the producer's function was still running
    ([teardownImmediately] set), it has run exactly once when [subscribe]
    returns and is not run again by anything that follows. *)
Theorem teardown_runs_once observer producer t teardown later :
  let st := subscribe observer producer t teardown in
  teardowns (log (exec_all observer later st)) <= 1
  /\ (has_teardown t = true ->
      forall td1 between td2 rest,
        teardowns (log (exec_all observer
                          (Unsubscribe td1 :: between ++ Unsubscribe td2 :: rest) st)) = 1)
  /\ (has_teardown t = true ->
      teardownImmediately (exec_all observer producer pending) = true ->
      teardowns (log st) = 1 /\ teardowns (log (exec_all observer later st)) = 1).
Proof.
  cbv zeta. split; [|split].
  - rewrite (teardowns_after observer producer t teardown later).
    destruct (_ && _); lia.
  - intros Ht td1 between td2 rest.
    rewrite (teardowns_after observer producer t teardown), unsubscribed_after, Ht.
    reflexivity.
  - intros Ht Hflag.
    assert (Hu : unsubscribed (subscribe observer producer t teardown) = true).
    { unfold subscribe. cbv zeta. simpl teardownImmediately. rewrite Hflag.
      apply (unsubscribe_unsubscribed observer teardown t). reflexivity. }
    split.
    + pose proof (teardowns_after observer producer t teardown []) as H.
      cbv zeta in H. cbn [exec_all] in H. rewrite H, Hu, Ht. reflexivity.
    + rewrite (teardowns_after observer producer t teardown later).
      rewrite (exec_all_unsubscribed _ _ _ Hu), Ht. reflexivity.
Qed.

(** C10: [unsubscribe] does not set [isDone] (here with a teardown that calls
    nothing back); and whenever [isDone] is not set after [unsubscribe], a
    later [next(value)] of the producer calls the downstream observer's
    [next] callback, if it has one. *)
Theorem unsubscribe_does_not_latch observer st :
  isDone (exec observer (Unsubscribe []) st) = isDone st
  /\ forall teardown value during,
       let st' := exec observer (Unsubscribe teardown) st in
       isDone st' = false -> has_next observer = true ->
       exists suf,
         log (exec observer (Next value during) st') = log st' ++ OnNext value :: suf.
Proof.
  split.
  - rewrite exec_eq. unfold unsubscribe.
    destruct (teardownRef st) as [[]|]; destruct (unsubscribed st); reflexivity.
  - intros teardown value during st' Hdone Hnext.
    rewrite (exec_eq observer (Next value during)), Hdone, Hnext.
    destruct (steps_log observer _ _
                (exec_all_steps observer during (record (OnNext value) st')))
      as [suf Hsuf].
    exists suf. rewrite Hsuf. simpl. rewrite <- app_assoc. reflexivity.
Qed.

(** *** Further properties *)

(** X6: values are delivered in the order they are emitted.  On a
    subscription that is not done, with an observer that has a [next]
    callback, a run of [next] calls adds exactly these values to the log, in
    order, and leaves the subscription not done. *)
Theorem next_values_in_order observer st (values : list TValue) :
  isDone st = false -> has_next observer = true ->
  let st' := exec_all observer (map (fun value => Next value []) values) st in
  log st' = log st ++ map OnNext values /\ isDone st' = false.
Proof.
  intros Hdone Hnext. cbv zeta. revert st Hdone.
  induction values as [|value values IH]; intros st Hdone; simpl map; cbn [exec_all].
  - rewrite app_nil_r. auto.
  - rewrite exec_eq, Hdone, Hnext. cbn [exec_all].
    destruct (IH (record (OnNext value) st) Hdone) as [-> ->]. simpl.
    rewrite <- app_assoc. auto.
Qed.

End Properties.

(** A producer that emits 1 and completes inside its subscribe function and
    returns a cleanup function; the consumer then unsubscribes twice. *)
Lemma teardown_runs_once_witness :
  let st := subscribe (TValue := nat) (TError := string) full
              [Next 1 []; Complete [] []] TeardownFunction [] in
  teardowns (log (exec_all full [Unsubscribe []; Unsubscribe []] st)) <= 1
  /\ teardowns (log (exec_all full
                       (Unsubscribe [] :: [Next 2 []] ++ Unsubscribe [] :: []) st)) = 1
  /\ teardowns (log st) = 1
  /\ teardowns (log (exec_all full [Unsubscribe []; Unsubscribe []] st)) = 1.
Proof.
  cbv zeta.
  destruct (teardown_runs_once (TValue := nat) (TError := string) full
              [Next 1 []; Complete [] []] TeardownFunction []
              [Unsubscribe []; Unsubscribe []]) as (H1 & H2 & H3).
  split; [exact H1|]. split; [exact (H2 eq_refl [] [Next 2 []] [] [])|].
  exact (H3 eq_refl eq_refl).
Defined.

(** A timer-like producer: the consumer unsubscribes, the timer fires once
    more and the value still reaches the observer. *)
Lemma unsubscribe_does_not_latch_witness :
  let st := subscribe (TValue := nat) (TError := string) full [] TeardownFunction [] in
  isDone (exec full (Unsubscribe []) st) = isDone st
  /\ exists suf,
       log (exec full (Next 7 []) (exec full (Unsubscribe []) st))
       = log (exec full (Unsubscribe []) st) ++ OnNext 7 :: suf.
Proof.
  cbv zeta.
  destruct (unsubscribe_does_not_latch (TValue := nat) (TError := string) full
              (subscribe full [] TeardownFunction [])) as [H1 H2].
  split; [exact H1|]. exact (H2 [] 7 [] eq_refl eq_refl).
Defined.

Lemma next_values_in_order_witness :
  let st := subscribe (TValue := nat) (TError := string) full [] TeardownFunction [] in
  log (exec_all full (map (fun value => Next value []) [3; 1; 2]) st)
  = log st ++ map OnNext [3; 1; 2]
  /\ isDone (exec_all full (map (fun value => Next value []) [3; 1; 2]) st) = false.
Proof.
  cbv zeta.
  exact (next_values_in_order (TValue := nat) (TError := string) full
           (subscribe full [] TeardownFunction []) [3; 1; 2] eq_refl eq_refl).
Defined.

End ObservableProps.

(** ** The postMessage adapter *)

Module PMProps.
Import Js PM.

Section Properties.

Variable deserialize : value -> outcome value value.
Variable ToNumber : value -> float.
Variable numberToString : float -> string.
Variable objectToString : value -> string.
Variable getErrorShape : ErrorShapeArgs -> value.

Abbreviation toString := (toString numberToString objectToString).
Abbreviation assertIsRequestId_guard := (assertIsRequestId_guard ToNumber).
Abbreviation assertIsRequestId := (assertIsRequestId ToNumber).
Abbreviation parseMessage := (parseMessage deserialize ToNumber).
Abbreviation run_listener := (run_listener getErrorShape).
Abbreviation Subscription_emit := (Subscription_emit getErrorShape).
Abbreviation Subscription_destroy := (Subscription_destroy getErrorShape).
Abbreviation handleRequest := (handleRequest getErrorShape).
Abbreviation handleRequest_called :=
  (handleRequest_called numberToString objectToString getErrorShape).
Abbreviation parse_all := (parse_all deserialize ToNumber).
Abbreviation dispatch_all := (dispatch_all getErrorShape).
Abbreviation listener_catch := (listener_catch getErrorShape).
Abbreviation onMessage := (onMessage deserialize ToNumber getErrorShape).
Abbreviation close := (close getErrorShape).

Implicit Types (h : handler) (msg : TRPCRequest) (p : Params) (sub : SubRef)
  (m : list (value * SubRef)).

(** *** The map *)

Lemma Map_get_delete m key : Map_get (Map_delete m key) key = None.
Proof.
  induction m as [|[k s] m IH]; simpl; [reflexivity|].
  destruct (sameValueZero k key) eqn:Hk; simpl; [exact IH|].
  rewrite Hk. exact IH.
Qed.

Lemma Map_set_fresh m key sub :
  Map_has m key = false -> Map_set m key sub = m ++ [(key, sub)].
Proof.
  unfold Map_has. induction m as [|[k s] m IH]; simpl; [reflexivity|].
  destruct (sameValueZero k key); [discriminate|].
  intros H. rewrite (IH H). reflexivity.
Qed.

(** *** Listeners and [destroy] act on the logs and the object only *)

Lemma run_listener_frame ev l h :
  clientSubscriptions (run_listener ev l h) = clientSubscriptions h
  /\ subscriptions (run_listener ev l h) = subscriptions h.
Proof. destruct ev, l; split; reflexivity. Qed.

Lemma run_listeners_frame ev ls h :
  let h' := fold_left (fun h l => run_listener ev l h) ls h in
  clientSubscriptions h' = clientSubscriptions h
  /\ subscriptions h' = subscriptions h.
Proof.
  revert h. induction ls as [|l ls IH]; intros h; simpl; [auto|].
  destruct (IH (run_listener ev l h)) as [-> ->]. apply run_listener_frame.
Qed.

Lemma Subscription_emit_frame sub ev h :
  clientSubscriptions (Subscription_emit sub ev h) = clientSubscriptions h
  /\ subscriptions (Subscription_emit sub ev h) = subscriptions h.
Proof.
  unfold Subscription_emit. destruct (subscriptions h !! sub); [|auto].
  apply run_listeners_frame.
Qed.

Lemma Subscription_destroy_map sub h :
  clientSubscriptions (Subscription_destroy sub h) = clientSubscriptions h.
Proof.
  unfold Subscription_destroy. destruct (subscriptions h !! sub) as [s|]; [|reflexivity].
  destruct (isDestroyed s); [reflexivity|].
  rewrite (proj1 (Subscription_emit_frame _ _ _)). reflexivity.
Qed.

Lemma Subscription_destroy_other sub other h :
  other <> sub ->
  subscriptions (Subscription_destroy sub h) !! other = subscriptions h !! other.
Proof.
  intros Hne. unfold Subscription_destroy.
  destruct (subscriptions h !! sub) as [s|]; [|reflexivity].
  destruct (isDestroyed s); [reflexivity|].
  rewrite (proj2 (Subscription_emit_frame _ _ _)). simpl.
  apply lookup_insert_ne. congruence.
Qed.

Lemma Subscription_destroy_destroyed sub s h :
  subscriptions h !! sub = Some s ->
  exists s', subscriptions (Subscription_destroy sub h) !! sub = Some s'
             /\ isDestroyed s' = true /\ listeners s' = listeners s.
Proof.
  intros Hs. unfold Subscription_destroy. rewrite Hs.
  destruct (isDestroyed s) eqn:Hd; [eauto|].
  rewrite (proj2 (Subscription_emit_frame _ _ _)). simpl.
  rewrite lookup_insert_eq. eauto.
Qed.

Lemma Subscription_destroy_silent sub s h :
  subscriptions h !! sub = Some s -> listeners s = [] ->
  posted (Subscription_destroy sub h) = posted h.
Proof.
  intros Hs Hl. unfold Subscription_destroy. rewrite Hs.
  destruct (isDestroyed s); [reflexivity|].
  unfold Subscription_emit. simpl. rewrite lookup_insert_eq. simpl.
  rewrite Hl. reflexivity.
Qed.

(** *** The batch *)

(** [parse_all] fails exactly at the first envelope that [parseMessage]
    rejects. *)
Lemma parse_all_rejects raws raw :
  raw ∈ raws -> (exists e, parseMessage raw = Throw e) ->
  exists cause, parse_all raws = Throw cause.
Proof.
  intros Hin [e He]. induction raws as [|r raws IH]; [inversion Hin|].
  simpl. destruct (parseMessage r) as [msg|e'] eqn:Hr; simpl; [|eauto].
  apply elem_of_cons in Hin as [->|Hin]; [congruence|].
  destruct (IH Hin) as [cause ->]. simpl. eauto.
Qed.

Lemma parse_all_accepts raws :
  Forall (fun raw => exists msg, parseMessage raw = Return msg) raws ->
  exists msgs, parse_all raws = Return msgs
               /\ Forall2 (fun raw msg => parseMessage raw = Return msg) raws msgs.
Proof.
  induction 1 as [|raw raws [msg Hmsg] _ (msgs & IH & IH2)]; simpl.
  - exists []. split; [reflexivity|constructor].
  - rewrite Hmsg, IH. simpl. exists (msg :: msgs). split; [reflexivity|].
    constructor; assumption.
Qed.

Lemma dispatch_all_length msgs h :
  length (fst (dispatch_all msgs h)) = length msgs.
Proof.
  revert h. induction msgs as [|msg msgs IH]; intros h; simpl; [reflexivity|].
  destruct (handleRequest msg h) as [r h1].
  specialize (IH h1). destruct (dispatch_all msgs h1) as [rs h2]. simpl in *.
  rewrite IH. reflexivity.
Qed.

(** The state in which the dispatch of a batch leaves the handler: each
    envelope's call of [handleRequest] works on the state the previous one
    left. *)
Lemma dispatch_all_state msgs h :
  snd (dispatch_all msgs h)
  = fold_left (fun h msg => snd (handleRequest msg h)) msgs h.
Proof.
  revert h. induction msgs as [|msg msgs IH]; intros h; simpl; [reflexivity|].
  destruct (handleRequest msg h) as [r h1].
  specialize (IH h1). destruct (dispatch_all msgs h1) as [rs h2]. simpl in *.
  exact IH.
Qed.

(** The promise at position [i] is that of [handleRequest] on the envelope at
    position [i], called in the state that the envelopes before it left. *)
Lemma dispatch_all_lookup msgs h i msg :
  msgs !! i = Some msg ->
  fst (dispatch_all msgs h) !! i
  = Some (fst (handleRequest msg
                 (fold_left (fun h msg => snd (handleRequest msg h)) (take i msgs) h))).
Proof.
  revert h i. induction msgs as [|m msgs IH]; intros h i Hi; [discriminate|].
  simpl. destruct (handleRequest m h) as [r h1] eqn:Hm.
  specialize (IH h1). destruct (dispatch_all msgs h1) as [rs h2]. simpl in IH.
  destruct i as [|i]; simpl in *.
  - injection Hi as <-. rewrite Hm. reflexivity.
  - rewrite Hm. simpl. apply IH, Hi.
Qed.

(** *** The claims about the adapter *)

(** C6: when [callProcedure] hands [handleRequest] a subscription for an id
    that the map already tracks, the request settles without registering it:
    the map is unchanged, the new subscription is destroyed, and the last
    response posted is the error envelope for that id, shaped by the router
    from a [BAD_REQUEST] error with message 'Duplicate id <id>' (the only
    response posted when the new subscription has no listener yet); the
    subscription registered for the id, being another object, is untouched. *)
Theorem duplicate_id_rejected msg p sub h :
  Map_has (clientSubscriptions h) (id msg) = true ->
  let r := handleRequest_called msg p (Return (IsSubscription sub)) h in
  let envelope :=
    ResponseError (id msg)
      (getErrorShape
         (ShapeArgs (TRPCError "BAD_REQUEST"
                       (Some ("Duplicate id " ++ toString (id msg))%string) None)
            (method msg) (Some (path p)) (input p))) in
  fst r = Settled (Return tt)
  /\ clientSubscriptions (snd r) = clientSubscriptions h
  /\ posted (snd r) = posted (Subscription_destroy sub h) ++ [envelope]
  /\ (forall s, subscriptions h !! sub = Some s ->
      exists s', subscriptions (snd r) !! sub = Some s' /\ isDestroyed s' = true)
  /\ (forall s, subscriptions h !! sub = Some s -> listeners s = [] ->
      posted (snd r) = posted h ++ [envelope])
  /\ (exists old, Map_get (clientSubscriptions h) (id msg) = Some old
      /\ Map_get (clientSubscriptions (snd r)) (id msg) = Some old
      /\ (old <> sub -> subscriptions (snd r) !! old = subscriptions h !! old)).
Proof.
  intros Hhas. cbv zeta. unfold handleRequest_called. rewrite Hhas. simpl.
  split; [reflexivity|]. split; [apply Subscription_destroy_map|].
  split; [reflexivity|]. split; [|split].
  - intros s Hs. destruct (Subscription_destroy_destroyed sub s h Hs) as (s' & H1 & H2 & _).
    eauto.
  - intros s Hs Hl. rewrite (Subscription_destroy_silent sub s h Hs Hl). reflexivity.
  - unfold Map_has in Hhas.
    destruct (Map_get (clientSubscriptions h) (id msg)) as [old|] eqn:Hold; [|discriminate].
    exists old. split; [reflexivity|]. split.
    + rewrite Subscription_destroy_map. exact Hold.
    + intros Hne. apply Subscription_destroy_other, Hne.
Qed.

(** C7 (amended): an entry is added at the end of the map when a
    subscription request whose id is not tracked gets its subscription; a
    [subscription.stop] request removes the entry of its id; [close] empties
    the map; an [error] event of a subscription leaves the map as it is. *)
Theorem map_entry_lifecycle h :
  (forall msg p sub,
      Map_has (clientSubscriptions h) (id msg) = false ->
      clientSubscriptions (snd (handleRequest_called msg p (Return (IsSubscription sub)) h))
      = clientSubscriptions h ++ [(id msg, sub)])
  /\ (forall msg,
        is_null (id msg) = false -> method msg = "subscription.stop" ->
        Map_has (clientSubscriptions (snd (handleRequest msg h))) (id msg) = false)
  /\ clientSubscriptions (close h) = []
  /\ (forall sub err,
        clientSubscriptions (Subscription_emit sub (EmitError err) h)
        = clientSubscriptions h).
Proof.
  split; [|split; [|split]].
  - intros msg p sub Hfresh. unfold handleRequest_called. rewrite Hfresh. simpl.
    unfold Subscription_on.
    repeat (match goal with
            | |- context [subscriptions ?x !! sub] =>
                destruct (subscriptions x !! sub); simpl
            end).
    all: apply Map_set_fresh, Hfresh.
  - intros msg Hid Hstop. unfold handleRequest. rewrite Hid, Hstop. simpl.
    unfold Map_has. rewrite Map_get_delete. reflexivity.
  - reflexivity.
  - intros sub err. apply Subscription_emit_frame.
Qed.



(** *** Further properties: [parseMessage] *)

Lemma is_string_literal_true (v : value) (literal : string) :
  is_string_literal v literal = true -> v = VStr literal.
Proof.
  destruct v; simpl; try discriminate. intros H.
  apply String.eqb_eq in H. congruence.
Qed.

Lemma assertIsString_returns (v : value) :
  assertIsString v = Return tt -> v = VStr (string_of v).
Proof. destruct v; simpl; try discriminate. reflexivity. Qed.

Lemma assertIsProcedureType_returns (v : value) :
  assertIsProcedureType v = Return tt ->
  v = VStr (string_of v)
  /\ (string_of v = "query" \/ string_of v = "mutation"
      \/ string_of v = "subscription").
Proof.
  unfold assertIsProcedureType.
  destruct (is_string_literal v "query") eqn:Hq;
    [apply is_string_literal_true in Hq; subst; auto|].
  destruct (is_string_literal v "subscription") eqn:Hs;
    [apply is_string_literal_true in Hs; subst; auto|].
  destruct (is_string_literal v "mutation") eqn:Hm;
    [apply is_string_literal_true in Hm; subst; auto|].
  discriminate.
Qed.

Lemma assertIsJSONRPC2OrUndefined_returns (v : value) :
  assertIsJSONRPC2OrUndefined v = Return tt -> v = VUndefined \/ v = VStr "2.0".
Proof.
  unfold assertIsJSONRPC2OrUndefined.
  destruct (is_string_literal v "2.0") eqn:H2;
    [apply is_string_literal_true in H2; auto|].
  destruct v; simpl; try discriminate. auto.
Qed.

(** X8: what [parseMessage] lets through.  A request it returns has the id
    of the envelope, which [assertIsRequestId] accepted; the envelope's
    [jsonrpc] is missing or '2.0'; and the request is either a stop request
    without params, or a query, mutation or subscription whose method and
    [jsonrpc] are the envelope's, whose path is the string [params.path] and
    whose input is the deserialized [params.input]. *)
Theorem parseMessage_sound obj msg :
  parseMessage obj = Return msg ->
  id msg = get obj "id"
  /\ assertIsRequestId (id msg) = Return tt
  /\ (get obj "jsonrpc" = VUndefined \/ get obj "jsonrpc" = VStr "2.0")
  /\ ((method msg = "subscription.stop"
       /\ get obj "method" = VStr "subscription.stop" /\ params msg = None)
      \/ ((method msg = "query" \/ method msg = "mutation"
           \/ method msg = "subscription")
          /\ get obj "method" = VStr (method msg)
          /\ jsonrpc msg = get obj "jsonrpc"
          /\ exists p, params msg = Some p
                       /\ get (get obj "params") "path" = VStr (path p)
                       /\ deserialize (get (get obj "params") "input")
                          = Return (input p))).
Proof.
  intros H. parse_steps H.
  - injection H as <-. simpl. repeat split; auto.
    + apply assertIsJSONRPC2OrUndefined_returns. assumption.
    + left. repeat split. apply is_string_literal_true. assumption.
  - destruct (deserialize _) as [i|] eqn:Hd; [|discriminate H].
    injection H as <-. simpl. repeat split; auto.
    + apply assertIsJSONRPC2OrUndefined_returns. assumption.
    + right. match goal with E : assertIsProcedureType _ = _ |- _ =>
        apply assertIsProcedureType_returns in E as [Hm Hcases] end.
      match goal with E : assertIsString _ = _ |- _ =>
        apply assertIsString_returns in E end.
      repeat split; auto. eexists. repeat split; simpl; eauto.
Qed.

(** X9: what [parseMessage] accepts.  For an object whose id passes
    [assertIsRequestId] and whose [jsonrpc] is missing or '2.0': a stop
    envelope is accepted whatever its params are, and its [jsonrpc] is
    dropped; a query, mutation or subscription envelope is accepted when its
    params are an object with a string path and an input that
    deserializes. *)
Theorem parseMessage_complete fields :
  let obj := VObj fields in
  assertIsRequestId (get obj "id") = Return tt ->
  (get obj "jsonrpc" = VUndefined \/ get obj "jsonrpc" = VStr "2.0") ->
  (get obj "method" = VStr "subscription.stop" ->
   parseMessage obj
   = Return {| jsonrpc := VUndefined; id := get obj "id";
               method := "subscription.stop"; params := None |})
  /\ (forall type params_fields path input,
        type = "query" \/ type = "mutation" \/ type = "subscription" ->
        get obj "method" = VStr type ->
        get obj "params" = VObj params_fields ->
        get_field params_fields "path" = VStr path ->
        deserialize (get_field params_fields "input") = Return input ->
        parseMessage obj
        = Return {| jsonrpc := get obj "jsonrpc"; id := get obj "id";
                    method := type;
                    params := Some {| input := input; path := path |} |}).
Proof.
  intros obj Hid Hrpc.
  assert (Hrpc' : PM.assertIsJSONRPC2OrUndefined (get obj "jsonrpc") = Return tt)
    by (destruct Hrpc as [-> | ->]; reflexivity).
  assert (Hobj : assertIsObject obj = Return tt) by reflexivity.
  split.
  - intros Hm. unfold PM.parseMessage, andThen. cbv zeta.
    rewrite Hobj, Hid, Hrpc', Hm. reflexivity.
  - intros type params_fields path input Htype Hm Hp Hpath Hin.
    unfold PM.parseMessage, andThen. cbv zeta.
    rewrite Hobj, Hid, Hrpc', Hm, Hp.
    destruct Htype as [-> | [-> | ->]]; simpl; rewrite Hpath, Hin; reflexivity.
Qed.

(** X10: a request that [parseMessage] returned with params never makes
    [callProcedure] fail with 'Unknown procedure type'. *)
Theorem parsed_type_is_known obj msg p :
  parseMessage obj = Return msg -> params msg = Some p ->
  exists called, callProcedure (method msg) (path p) (input p) = Return called.
Proof.
  intros H Hp. parse_steps H.
  - injection H as <-. discriminate Hp.
  - destruct (deserialize _) as [i|] eqn:Hd; [|discriminate H].
    injection H as <-. simpl in *.
    match goal with E : assertIsProcedureType _ = _ |- _ =>
      apply assertIsProcedureType_returns in E as [_ [-> | [-> | ->]]] end;
      eexists; reflexivity.
Qed.

(** X11: an envelope whose id is [null] passes [parseMessage], and
    [handleRequest] then refuses it with [BAD_REQUEST] before doing
    anything. *)
Theorem null_id_refused_at_dispatch obj msg h :
  parseMessage obj = Return msg -> get obj "id" = VNull ->
  handleRequest msg h
  = (Settled (Throw (TRPCError "BAD_REQUEST" (Some "`id` is required") None)), h).
Proof.
  intros H Hid. unfold PM.handleRequest.
  assert (Hmsg : id msg = VNull).
  { parse_steps H.
    - injection H as <-. exact Hid.
    - destruct (deserialize _) as [i|] eqn:Hd; [|discriminate H].
      injection H as <-. exact Hid. }
  rewrite Hmsg. reflexivity.
Qed.

(** *** Further properties: the map and the subscriptions *)

Lemma sameValueZero_refl (v : value) :
  match v with VArr _ | VObj _ => False | _ => True end ->
  sameValueZero v v = true.
Proof.
  destruct v as [| |b|n|s| |]; simpl; try tauto; intros _.
  - destruct b; reflexivity.
  - unfold PrimFloat.is_nan. destruct (PrimFloat.eqb n n); reflexivity.
  - apply String.eqb_refl.
Qed.

Lemma Map_delete_absent m key : Map_has m key = false -> Map_delete m key = m.
Proof.
  unfold Map_has. induction m as [|[k s] m IH]; simpl; [reflexivity|].
  destruct (sameValueZero k key); [discriminate|].
  intros H. rewrite (IH H). reflexivity.
Qed.

Lemma Map_get_app m1 m2 key sub :
  Map_get m1 key = Some sub -> Map_get (m1 ++ m2) key = Some sub.
Proof.
  induction m1 as [|[k s] m1 IH]; simpl; [discriminate|].
  destruct (sameValueZero k key); auto.
Qed.

Lemma Map_get_last m key sub :
  Map_has m key = false -> sameValueZero key key = true ->
  Map_get (m ++ [(key, sub)]) key = Some sub
  /\ Map_delete (m ++ [(key, sub)]) key = m.
Proof.
  unfold Map_has. intros Hm Hk. induction m as [|[k s] m IH]; simpl in *.
  - rewrite Hk. auto.
  - destruct (sameValueZero k key); [discriminate|].
    destruct (IH Hm) as [H1 H2]. rewrite H1, H2. auto.
Qed.

Lemma handler_eta h :
  Handler (clientSubscriptions h) (subscriptions h) (posted h) (reported h) = h.
Proof. destruct h; reflexivity. Qed.

(** X12: stopping what is not tracked does nothing.  A [subscription.stop]
    request whose id the map does not have settles at once and leaves the
    handler as it was: nothing is destroyed and no envelope is posted. *)
Theorem stop_untracked_is_noop msg h :
  is_null (id msg) = false -> method msg = "subscription.stop" ->
  Map_has (clientSubscriptions h) (id msg) = false ->
  handleRequest msg h = (Settled (Return tt), h).
Proof.
  intros Hid Hstop Hhas. unfold PM.handleRequest. rewrite Hid, Hstop. simpl.
  pose proof Hhas as Hget. unfold Map_has in Hget.
  destruct (Map_get (clientSubscriptions h) (id msg)); [discriminate|].
  rewrite (Map_delete_absent _ _ Hhas). unfold set_clientSubscriptions.
  rewrite handler_eta. reflexivity.
Qed.

Lemma Subscription_on_found sub l s h :
  subscriptions h !! sub = Some s ->
  Subscription_on sub l h
  = set_subscriptions
      (<[sub := {| isDestroyed := isDestroyed s; listeners := listeners s ++ [l] |}]>
         (subscriptions h)) h.
Proof. intros Hs. unfold Subscription_on. rewrite Hs. reflexivity. Qed.

Lemma Subscription_on_thrice sub l1 l2 l3 s h :
  subscriptions h !! sub = Some s ->
  Subscription_on sub l3 (Subscription_on sub l2 (Subscription_on sub l1 h))
  = set_subscriptions
      (<[sub := {| isDestroyed := isDestroyed s;
                   listeners := listeners s ++ [l1; l2; l3] |}]>
         (subscriptions h)) h.
Proof.
  intros Hs. rewrite (Subscription_on_found sub l1 s h Hs).
  erewrite (Subscription_on_found sub l2) by (simpl; apply lookup_insert_eq).
  erewrite (Subscription_on_found sub l3) by (simpl; apply lookup_insert_eq).
  unfold set_subscriptions. simpl. rewrite !insert_insert_eq, <- !app_assoc.
  reflexivity.
Qed.

Lemma Subscription_on_map sub l h :
  clientSubscriptions (Subscription_on sub l h) = clientSubscriptions h.
Proof. unfold Subscription_on. destruct (subscriptions h !! sub); reflexivity. Qed.

(** X13: a subscription request followed by its stop request.  For an id
    that is not tracked (and is not an object) and a live subscription with
    no listener yet: the subscription is registered and 'started' is posted;
    the stop request then destroys it, posts 'stopped' and removes the entry,
    so that the map is what it was and exactly these two envelopes were
    posted. *)
Theorem subscribe_then_stop msg p stop sub h :
  is_null (id msg) = false -> sameValueZero (id msg) (id msg) = true ->
  Map_has (clientSubscriptions h) (id msg) = false ->
  subscriptions h !! sub = Some {| isDestroyed := false; listeners := [] |} ->
  id stop = id msg -> method stop = "subscription.stop" ->
  let started := handleRequest_called msg p (Return (IsSubscription sub)) h in
  let stopped := handleRequest stop (snd started) in
  fst started = AwaitingStart msg sub
  /\ Map_get (clientSubscriptions (snd started)) (id msg) = Some sub
  /\ fst stopped = Settled (Return tt)
  /\ clientSubscriptions (snd stopped) = clientSubscriptions h
  /\ posted (snd stopped)
     = posted h ++ [ResponseResult (id msg) ResultStarted;
                    ResponseResult (id msg) ResultStopped]
  /\ exists s, subscriptions (snd stopped) !! sub = Some s /\ isDestroyed s = true.
Proof.
  intros Hid Hrefl Hfresh Hsub Hstop_id Hstop. cbv zeta.
  unfold PM.handleRequest_called. rewrite Hfresh.
  rewrite (Map_set_fresh _ _ sub Hfresh).
  erewrite (Subscription_on_thrice sub) by (simpl; exact Hsub).
  simpl. destruct (Map_get_last (clientSubscriptions h) (id msg) sub Hfresh Hrefl)
    as [Hget Hdel].
  split; [reflexivity|]. split; [exact Hget|].
  unfold PM.handleRequest. rewrite Hstop_id, Hid, Hstop. simpl.
  rewrite Hget. unfold PM.Subscription_destroy, PM.Subscription_emit. simpl.
  rewrite !lookup_insert_eq. simpl. rewrite !lookup_insert_eq. simpl.
  rewrite Hdel. split; [reflexivity|]. split; [reflexivity|]. split.
  - rewrite <- app_assoc. reflexivity.
  - eexists. split; reflexivity.
Qed.

(** X14: a tracked subscription is never replaced.  Whatever [callProcedure]
    resolved to, the subscription the map has for any id before
    [handleRequest] goes on is the one it has for that id afterwards. *)
Theorem tracked_subscription_kept msg p result key old h :
  Map_get (clientSubscriptions h) key = Some old ->
  Map_get (clientSubscriptions (snd (handleRequest_called msg p result h))) key
  = Some old.
Proof.
  intros Hold. unfold PM.handleRequest_called.
  destruct result as [[data|sub]|cause]; simpl; try exact Hold.
  destruct (Map_has (clientSubscriptions h) (id msg)) eqn:Hhas; simpl.
  - rewrite Subscription_destroy_map. exact Hold.
  - rewrite !Subscription_on_map. simpl.
    rewrite (Map_set_fresh _ _ sub Hhas). apply Map_get_app, Hold.
Qed.

(** *** Further properties: [close] *)

Lemma Subscription_destroy_keeps sub other h :
  (exists s, subscriptions h !! other = Some s /\ isDestroyed s = true) ->
  exists s, subscriptions (Subscription_destroy sub h) !! other = Some s
            /\ isDestroyed s = true.
Proof.
  intros (s & Hs & Hd). destruct (decide (other = sub)) as [->|Hne].
  - destruct (Subscription_destroy_destroyed sub s h Hs) as (s' & H1 & H2 & _). eauto.
  - rewrite (Subscription_destroy_other sub other h Hne). eauto.
Qed.

Lemma Subscription_destroy_present sub other h :
  is_Some (subscriptions h !! other) ->
  is_Some (subscriptions (Subscription_destroy sub h) !! other).
Proof.
  intros [s Hs]. destruct (decide (other = sub)) as [->|Hne].
  - destruct (Subscription_destroy_destroyed sub s h Hs) as (s' & H1 & _). eauto.
  - rewrite (Subscription_destroy_other sub other h Hne). eauto.
Qed.

Lemma destroy_all_destroys (entries : list (value * SubRef)) h sub :
  is_Some (subscriptions h !! sub) ->
  (exists key, (key, sub) ∈ entries)
  \/ (exists s, subscriptions h !! sub = Some s /\ isDestroyed s = true) ->
  exists s,
    subscriptions
      (fold_left (fun h entry => Subscription_destroy (snd entry) h) entries h)
      !! sub = Some s
    /\ isDestroyed s = true.
Proof.
  revert h. induction entries as [|[k r] entries IH]; intros h Hsome Hcase; simpl.
  - destruct Hcase as [[key Hin]|Hd]; [|exact Hd].
    apply elem_of_nil in Hin. contradiction.
  - apply IH; [apply Subscription_destroy_present, Hsome|].
    destruct Hcase as [[key Hin]|Hd].
    + apply elem_of_cons in Hin as [Heq|Hin]; [|eauto].
      injection Heq as -> ->. right. destruct Hsome as [s Hs].
      destruct (Subscription_destroy_destroyed r s h Hs) as (s' & H1 & H2 & _). eauto.
    + right. apply Subscription_destroy_keeps, Hd.
Qed.

(** X15: [close] leaves nothing behind.  After [close] the map is empty and
    every subscription it tracked is destroyed; closing again changes
    nothing. *)
Theorem close_destroys_all h :
  clientSubscriptions (close h) = []
  /\ (forall key sub,
        (key, sub) ∈ clientSubscriptions h -> is_Some (subscriptions h !! sub) ->
        exists s, subscriptions (close h) !! sub = Some s /\ isDestroyed s = true)
  /\ close (close h) = close h.
Proof.
  split; [reflexivity|]. split; [|reflexivity].
  intros key sub Hin Hsome. unfold PM.close. simpl.
  apply destroy_all_destroys; [exact Hsome|]. left. eauto.
Qed.

End Properties.

Lemma duplicate_id_rejected_witness :
  let r := handleRequest_called number_image object_image code_and_message
             request_7 params_7 (Return (IsSubscription 1)) tracking_7 in
  fst r = Settled (Return tt)
  /\ clientSubscriptions (snd r) = [(VStr "7", 0)]
  /\ posted (snd r)
     = [ResponseResult (VStr "7") ResultStarted;
        ResponseError (VStr "7")
          (VObj [("code", VStr "BAD_REQUEST"); ("message", VStr "Duplicate id 7")])]
  /\ subscriptions (snd r) !! 0 = subscriptions tracking_7 !! 0.
Proof.
  cbv zeta.
  destruct (duplicate_id_rejected number_image object_image code_and_message
              request_7 params_7 1 tracking_7 eq_refl)
    as (H1 & H2 & _ & _ & H5 & (old & Hold & _ & H6)).
  split; [exact H1|]. split; [exact H2|]. split.
  - exact (H5 {| isDestroyed := false; listeners := [] |} eq_refl eq_refl).
  - injection Hold as <-. apply H6. discriminate.
Defined.

(** C7, as stated, fails: after an [error] event of the subscription tracked
    for id 7 (an error envelope is posted), the map still has the id. *)
Lemma entry_survives_error :
  let h := Subscription_emit code_and_message 0 (EmitError (Error "boom")) tracking_7 in
  Map_has (clientSubscriptions tracking_7) (VStr "7") = true
  /\ posted h
     = posted tracking_7
         ++ [ResponseError (VStr "7") (VObj [("code", VStr "INTERNAL_SERVER_ERROR")])]
  /\ Map_has (clientSubscriptions h) (VStr "7") = true.
Proof. cbv zeta. repeat split; vm_compute; reflexivity. Qed.

Lemma map_entry_lifecycle_witness :
  clientSubscriptions tracking_7 = clientSubscriptions idle ++ [(VStr "7", 0)]
  /\ Map_has (clientSubscriptions
                (snd (handleRequest code_and_message
                        {| jsonrpc := VUndefined; id := VStr "7";
                           method := "subscription.stop"; params := None |}
                        tracking_7))) (VStr "7") = false.
Proof.
  destruct (map_entry_lifecycle number_image object_image code_and_message idle)
    as (H1 & _).
  destruct (map_entry_lifecycle number_image object_image code_and_message tracking_7)
    as (_ & H2 & _).
  split.
  - exact (H1 request_7 params_7 0 eq_refl).
  - exact (H2 {| jsonrpc := VUndefined; id := VStr "7";
                 method := "subscription.stop"; params := None |} eq_refl eq_refl).
Defined.





Lemma parseMessage_sound_witness :
  id request_7 = get subscribe_7 "id"
  /\ assertIsRequestId primitive_ToNumber (id request_7) = Return tt.
Proof.
  destruct (parseMessage_sound plain primitive_ToNumber subscribe_7 request_7 eq_refl)
    as (H1 & H2 & _).
  split; [exact H1|exact H2].
Defined.

(** A stop envelope is accepted with params that are not even an object. *)
Lemma parseMessage_complete_witness :
  parseMessage plain primitive_ToNumber
    (VObj [("id", VStr "7"); ("method", VStr "subscription.stop");
           ("params", VNum 5); ("jsonrpc", VStr "2.0")])
  = Return stop_request_7.
Proof.
  apply (parseMessage_complete plain primitive_ToNumber
           [("id", VStr "7"); ("method", VStr "subscription.stop");
            ("params", VNum 5); ("jsonrpc", VStr "2.0")] eq_refl (or_intror eq_refl)).
  reflexivity.
Defined.

Lemma parsed_type_is_known_witness :
  exists called, callProcedure "subscription" "randomNumber" VNull = Return called.
Proof.
  exact (parsed_type_is_known plain primitive_ToNumber subscribe_7 request_7 params_7
           eq_refl eq_refl).
Defined.

Lemma null_id_refused_at_dispatch_witness :
  parseMessage plain primitive_ToNumber query_without_id = Return request_without_id
  /\ handleRequest code_and_message request_without_id tracking_7
     = (Settled (Throw (TRPCError "BAD_REQUEST" (Some "`id` is required") None)),
        tracking_7).
Proof.
  split; [reflexivity|].
  exact (null_id_refused_at_dispatch plain primitive_ToNumber code_and_message
           query_without_id request_without_id tracking_7 eq_refl eq_refl).
Defined.

Lemma stop_untracked_is_noop_witness :
  handleRequest code_and_message stop_request_7 idle = (Settled (Return tt), idle).
Proof.
  exact (stop_untracked_is_noop code_and_message stop_request_7 idle
           eq_refl eq_refl eq_refl).
Defined.

Lemma subscribe_then_stop_witness :
  let started := handleRequest_called number_image object_image code_and_message
                   request_7 params_7 (Return (IsSubscription 0)) idle in
  let stopped := handleRequest code_and_message stop_request_7 (snd started) in
  clientSubscriptions (snd stopped) = clientSubscriptions idle
  /\ posted (snd stopped)
     = posted idle ++ [ResponseResult (VStr "7") ResultStarted;
                       ResponseResult (VStr "7") ResultStopped].
Proof.
  cbv zeta.
  destruct (subscribe_then_stop number_image object_image code_and_message
              request_7 params_7 stop_request_7 0 idle
              eq_refl eq_refl eq_refl eq_refl eq_refl eq_refl)
    as (_ & _ & _ & H1 & H2 & _).
  split; [exact H1|exact H2].
Defined.

Lemma tracked_subscription_kept_witness :
  Map_get
    (clientSubscriptions
       (snd (handleRequest_called number_image object_image code_and_message
               request_7 params_7 (Return (IsSubscription 1)) tracking_7)))
    (VStr "7") = Some 0.
Proof.
  exact (tracked_subscription_kept number_image object_image code_and_message
           request_7 params_7 (Return (IsSubscription 1)) (VStr "7") 0 tracking_7
           eq_refl).
Defined.

Lemma close_destroys_all_witness :
  clientSubscriptions (close code_and_message tracking_7) = []
  /\ exists s, subscriptions (close code_and_message tracking_7) !! 0 = Some s
               /\ isDestroyed s = true.
Proof.
  destruct (close_destroys_all code_and_message tracking_7) as (H1 & H2 & _).
  split; [exact H1|]. apply (H2 (VStr "7") 0).
  - apply elem_of_cons. left. reflexivity.
  - eexists. reflexivity.
Defined.

End PMProps.
